(** * pak: reading and writing chromium .pak resource files

    A shallow embedding of [pak.go] (package [pak]): the [PakFile] structure,
    [Read] and [Write], and the properties of the binary layout they agree on.

    Conventions of the embedding.
    - Go's fixed-width unsigned integers are values of [Z] together with the
      wrap-around of every operation written out ([u8], [u16], [u32]).
    - [[]byte] is [list byte]; [map[uint16][]byte] is a [gmap Z (list byte)].
    - [encoding/binary] with [binary.LittleEndian] is [le_split] / [le_combine].
    - An [io.Reader] is the list of bytes not yet consumed, read the way an
      [*os.File] (the reader [ReadFile] passes to [Read]) or a [bytes.Buffer]
      answers: as many bytes as asked for when they are there, fewer at the
      end of the data, [io.EOF] once nothing is left, and [(0, nil)] for a
      zero-length request.
    - An [io.Writer] is the list of bytes written so far; it never fails
      (a [bytes.Buffer]).
    - The file system [ReadFile] and [WriteFile] work on is a map from
      names to contents, with the names [os.Create] refuses.
    - A run-time panic (index out of range) is a result of its own. *)

From Stdlib Require Import ZArith Lia List.
From stdpp Require Import gmap list sorting strings.
From coqutil Require Import Byte Word.LittleEndianList.

Local Open Scope Z_scope.

(** ** Fixed-width integers *)

Definition u8 (z : Z) : Z := z mod 2 ^ 8.
Definition u16 (z : Z) : Z := z mod 2 ^ 16.
Definition u32 (z : Z) : Z := z mod 2 ^ 32.

(** ** Errors, results and the state-and-error monad *)

Inductive error : Type :=
  | io_EOF                        (* io.EOF *)
  | io_ErrUnexpectedEOF           (* io.ErrUnexpectedEOF *)
  | ErrLastId                     (* "error reading resources: last id != 0" *)
  | ErrReadResource (resId : Z)   (* "error reading resource id=%d" *)
  | ErrNilPak                     (* "error writing pak: p == nil" *)
  | ErrWriteResource (resId : Z). (* "error writing resource id=%d" *)

Inductive result (A : Type) : Type :=
  | Ok (a : A)
  | Err (e : error)
  | Panic.

Arguments Ok {A} a.
Arguments Err {A} e.
Arguments Panic {A}.

(** A computation over a state [S] (the reader or the writer) that returns a
    value, returns an error, or panics. *)
Definition M (S A : Type) : Type := S → result (A * S).

Definition fail {S A} (e : error) : M S A := λ _, Err e.
Definition panic {S A} : M S A := λ _, Panic.

#[export] Instance M_mret {S} : MRet (M S) := λ A a s, Ok (a, s).
#[export] Instance M_bind {S} : MBind (M S) := λ A B k c s,
  match c s with
  | Ok (a, s') => k a s'
  | Err e => Err e
  | Panic => Panic
  end.

(** ** The data model *)

Record PakFile : Type := {
  Version : Z;                      (* uint32 *)
  Encoding : Z;                     (* uint8 *)
  Resourses : gmap Z (list byte)    (* maps resource id -> resource data *)
}.

Definition EncodingBinary : Z := 0.
Definition EncodingUTF8 : Z := 1.
Definition EncodingUTF16 : Z := 2.

Record resourceInfo : Type := {
  id : Z;       (* uint16 *)
  offset : Z    (* uint32 *)
}.

Definition headerLength : Z := 4 + 4 + 1.

(** The values the Go types admit. *)
Definition is_u8 (z : Z) : Prop := 0 ≤ z < 2 ^ 8.
Definition is_u16 (z : Z) : Prop := 0 ≤ z < 2 ^ 16.
Definition is_u32 (z : Z) : Prop := 0 ≤ z < 2 ^ 32.

Definition valid_PakFile (p : PakFile) : Prop :=
  is_u32 (Version p) ∧ is_u8 (Encoding p) ∧
  map_Forall (λ k _, is_u16 k) (Resourses p).

Definition valid_resourceInfo (ri : resourceInfo) : Prop :=
  is_u16 (id ri) ∧ is_u32 (offset ri).

(** ** Readers *)

Definition Reader : Type := list byte.

(** [r.Read(buf)] with [len(buf) = n]: the bytes stored into [buf] and the
    error returned. *)
Definition Reader_Read (n : Z) : M Reader (list byte * option error) :=
  λ r, if decide (n = 0) then Ok (([], None), r)
       else match r with
            | [] => Ok (([], Some io_EOF), r)
            | _ => Ok ((take (Z.to_nat n) r, None), drop (Z.to_nat n) r)
            end.

(** [io.ReadFull(r, buf)] with [len(buf) = n]: [Read] is called until [n]
    bytes have arrived or an error has; over the readers above that is one
    call, or two at the end of the data. *)
Definition io_ReadFull (n : nat) : M Reader (list byte) :=
  λ r, if decide (n ≤ length r)%nat then Ok (take n r, drop n r)
       else match r with
            | [] => Err io_EOF
            | _ => Err io_ErrUnexpectedEOF
            end.

(** [binary.Read(r, binary.LittleEndian, &v)] for [v] of 1, 2 and 4 bytes. *)
Definition binary_Read (size : nat) : M Reader Z :=
  bs ← io_ReadFull size; mret (le_combine bs).

(** ** Read *)

(** The loop [for i = 0; i < numberOfResources+1; i++] that fills
    [resInfos]; [n] counts the iterations left. *)
Fixpoint read_resInfos (n : nat) : M Reader (list resourceInfo) :=
  match n with
  | O => mret []
  | S n' =>
      ri_id ← binary_Read 2;
      ri_offset ← binary_Read 4;
      rest ← read_resInfos n';
      mret ({| id := ri_id; offset := ri_offset |} :: rest)
  end.

(** [resInfos[i]], which panics out of range. *)
Definition index {S} (resInfos : list resourceInfo) (i : Z) : M S resourceInfo :=
  if decide (i < Z.of_nat (length resInfos)) then
    match resInfos !! Z.to_nat i with
    | Some ri => mret ri
    | None => panic
    end
  else panic.

(** The loop [for i = 0; i < numberOfResources; i++] that reads the
    resources; [n] counts the iterations left. *)
Fixpoint read_resources (resInfos : list resourceInfo) (n : nat) (i : Z)
    (res : gmap Z (list byte)) : M Reader (gmap Z (list byte)) :=
  match n with
  | O => mret res
  | S n' =>
      ri ← index resInfos i;
      ri' ← index resInfos (i + 1);
      let resId := id ri in
      let resLength := u32 (offset ri' - offset ri) in
      rd ← Reader_Read resLength;
      match rd with
      | (_, Some err) => fail err
      | (resData, None) =>
          if decide (u32 (Z.of_nat (length resData)) ≠ resLength)
          then fail (ErrReadResource resId)
          else read_resources resInfos n' (i + 1) (<[resId := resData]> res)
      end
  end.

Definition Read_M : M Reader PakFile :=
  version ← binary_Read 4;
  numberOfResources ← binary_Read 4;
  encoding ← binary_Read 1;
  resInfos ← read_resInfos (Z.to_nat (u32 (numberOfResources + 1)));
  last ← index resInfos numberOfResources;
  if decide (id last ≠ 0) then fail ErrLastId
  else
    res ← read_resources resInfos (Z.to_nat numberOfResources) 0 ∅;
    mret {| Version := version; Encoding := encoding; Resourses := res |}.

(** [Read(r)]: the pak structure and a nil error, a nil structure and the
    error, or a panic. *)
Definition Read (r : Reader) : result PakFile :=
  match Read_M r with
  | Ok (pak, _) => Ok pak
  | Err e => Err e
  | Panic => Panic
  end.

(** ** Writers *)

Definition Writer : Type := list byte.

(** [w.Write(data)]: the number of bytes written and the error. *)
Definition Writer_Write (data : list byte) : M Writer (Z * option error) :=
  λ w, Ok ((Z.of_nat (length data), None), w ++ data).

(** [binary.Write(w, binary.LittleEndian, v)] for [v] of 1, 2 and 4 bytes. *)
Definition binary_Write (size : nat) (v : Z) : M Writer unit :=
  wr ← Writer_Write (le_split size v);
  match wr with
  | (_, Some err) => fail err
  | (_, None) => mret tt
  end.

(** ** Write *)

(** [sort.Ints]. *)
Definition sort_Ints (ids : list Z) : list Z := merge_sort Z.le ids.

(** [p.Resourses[resId]]: the data, or nil when the key is absent. *)
Definition resource (p : PakFile) (resId : Z) : list byte :=
  default [] (Resourses p !! resId).

(** The loop that writes one index entry per id and advances [curOffset];
    it returns the offset after the last resource. *)
Fixpoint write_resInfos (p : PakFile) (ids : list Z) (curOffset : Z) : M Writer Z :=
  match ids with
  | [] => mret curOffset
  | i :: ids' =>
      let resId := u16 i in
      binary_Write 2 resId ;;
      binary_Write 4 curOffset ;;
      write_resInfos p ids'
        (u32 (curOffset + u32 (Z.of_nat (length (resource p resId)))))
  end.

(** The loop that writes the resources. *)
Fixpoint write_resources (p : PakFile) (ids : list Z) : M Writer unit :=
  match ids with
  | [] => mret tt
  | i :: ids' =>
      let resId := u16 i in
      let resData := resource p resId in
      let resLength := Z.of_nat (length resData) in
      wr ← Writer_Write resData;
      match wr with
      | (_, Some err) => fail err
      | (n, None) =>
          if decide (n ≠ resLength) then fail (ErrWriteResource resId)
          else write_resources p ids'
      end
  end.

(** [for resId, _ := range p.Resourses] visits the keys in an order Go leaves
    unspecified: every key once. [range_order] is that order. *)
Definition range_of (m : gmap Z (list byte)) (range_order : list Z) : Prop :=
  range_order ≡ₚ (map_to_list m).*1.

#[export] Instance range_of_dec m range_order : Decision (range_of m range_order) :=
  decide (range_order ≡ₚ (map_to_list m).*1).

(** [Write(w, p)], given the order in which [range] yields the keys. *)
Definition Write_M (range_order : list Z) (p : option PakFile) : M Writer unit :=
  match p with
  | None => fail ErrNilPak
  | Some p =>
      let numberOfResources := u32 (Z.of_nat (size (Resourses p))) in
      binary_Write 4 (Version p) ;;
      binary_Write 4 numberOfResources ;;
      binary_Write 1 (Encoding p) ;;
      let indexLength := u32 ((2 + 4) * u32 (numberOfResources + 1)) in
      let curOffset := u32 (headerLength + indexLength) in
      let ids := sort_Ints range_order in
      curOffset ← write_resInfos p ids curOffset;
      binary_Write 2 (u16 0) ;;
      binary_Write 4 curOffset ;;
      write_resources p ids
  end.

(** The bytes [Write] leaves in an empty writer, or its error. *)
Definition Write (range_order : list Z) (p : option PakFile) : result (list byte) :=
  match Write_M range_order p [] with
  | Ok (_, w) => Ok w
  | Err e => Err e
  | Panic => Panic
  end.

(** The order [range] takes when it follows the map's own enumeration. *)
Definition keys (p : PakFile) : list Z := (map_to_list (Resourses p)).*1.

(** ** Files *)

(** The files there are, and the names that cannot be created. *)
Record FileSystem : Type := {
  files : gmap string (list byte);
  no_create : gset string
}.

Inductive os_error : Type :=
  | ErrOpen (name : string)      (* the *PathError of os.Open *)
  | ErrCreate (name : string).   (* the *PathError of os.Create *)

(** What a file wrapper returns: the error of [os.Open] or [os.Create], or
    what [Read] or [Write] returned. *)
Inductive file_result (A : Type) : Type :=
  | FileErr (e : os_error)
  | Done (r : result A).

Arguments FileErr {A} e.
Arguments Done {A} r.

(** [os.Open(name)]: the contents to read, when the file is there. *)
Definition os_Open (name : string) (fs : FileSystem) : option Reader :=
  files fs !! name.

(** [os.Create(name)]: the file is created, or truncated when it is there. *)
Definition os_Create (name : string) (fs : FileSystem) : option FileSystem :=
  if decide (name ∈ no_create fs) then None
  else Some {| files := <[name := []]> (files fs); no_create := no_create fs |}.

(** [ReadFile(name)]. *)
Definition ReadFile (name : string) (fs : FileSystem) : file_result PakFile :=
  match os_Open name fs with
  | None => FileErr (ErrOpen name)
  | Some f => Done (Read f)
  end.

(** [WriteFile(name, p)]: what it returns and the file system it leaves.
    [Write] appends to the file that [os.Create] has emptied. *)
Definition WriteFile (range_order : list Z) (name : string) (p : option PakFile)
    (fs : FileSystem) : file_result unit * FileSystem :=
  match os_Create name fs with
  | None => (FileErr (ErrCreate name), fs)
  | Some fs' =>
      match Write_M range_order p [] with
      | Ok (_, f) =>
          (Done (Ok tt),
           {| files := <[name := f]> (files fs'); no_create := no_create fs' |})
      | Err e => (Done (Err e), fs')
      | Panic => (Done Panic, fs')
      end
  end.


(** ** Examples *)

Definition pak_empty : PakFile :=
  {| Version := 4; Encoding := EncodingUTF8; Resourses := ∅ |}.

Definition pak_5 : PakFile :=
  {| Version := 4; Encoding := EncodingUTF8; Resourses := {[ 5 := [] ]} |}.

Definition pak_ab : PakFile :=
  {| Version := 4; Encoding := EncodingUTF8;
     Resourses := <[300 := [Byte.x62]]> (<[7 := [Byte.x61]]> ∅) |}.

(** ** The byte layout *)

Definition put_header (version numberOfResources encoding : Z) : list byte :=
  le_split 4 version ++ le_split 4 numberOfResources ++ le_split 1 encoding.

Definition put_resourceInfo (ri : resourceInfo) : list byte :=
  le_split 2 (id ri) ++ le_split 4 (offset ri).

(** The index entries [write_resInfos] emits for [ids] from [curOffset] on,
    and the offset it ends with. *)
Fixpoint index_entries (p : PakFile) (ids : list Z) (curOffset : Z) : list resourceInfo :=
  match ids with
  | [] => []
  | i :: ids' =>
      {| id := u16 i; offset := curOffset |}
      :: index_entries p ids'
           (u32 (curOffset + u32 (Z.of_nat (length (resource p (u16 i))))))
  end.

Fixpoint end_offset (p : PakFile) (ids : list Z) (curOffset : Z) : Z :=
  match ids with
  | [] => curOffset
  | i :: ids' =>
      end_offset p ids'
        (u32 (curOffset + u32 (Z.of_nat (length (resource p (u16 i))))))
  end.

Definition payload (p : PakFile) (ids : list Z) : list byte :=
  concat ((λ i, resource p (u16 i)) <$> ids).

(** The offset of the first resource, as [Write] computes it. *)
Definition start_offset (p : PakFile) : Z :=
  let numberOfResources := u32 (Z.of_nat (size (Resourses p))) in
  u32 (headerLength + u32 ((2 + 4) * u32 (numberOfResources + 1))).

(** What can be read off the bytes of a file: the id and the offset of the
    [i]-th index entry. *)
Definition written_id (out : list byte) (i : nat) : Z :=
  le_combine (take 2 (drop (9 + 6 * i)%nat out)).

Definition written_offset (out : list byte) (i : nat) : Z :=
  le_combine (take 4 (drop (9 + 6 * i + 2)%nat out)).

(** The payloads [ds] have the lengths the index [es] declares: one payload
    for every entry but the last, as long as the difference of the offsets. *)
Fixpoint declared (es : list resourceInfo) (ds : list (list byte)) : Prop :=
  match es, ds with
  | ri :: ((ri' :: _) as es'), d :: ds' =>
      Z.of_nat (length d) = u32 (offset ri' - offset ri) ∧ declared es' ds'
  | [_], [] => True
  | _, _ => False
  end.

(** The map [Read] builds from ids and payloads, inserted in index order. *)
Definition insert_all (res : gmap Z (list byte)) (kds : list (Z * list byte))
    : gmap Z (list byte) :=
  foldl (λ m kd, <[kd.1 := kd.2]> m) res kds.

(** The bytes of a file with the resources in the order [ids]. *)
Definition layout (p : PakFile) (ids : list Z) : list byte :=
  put_header (Version p) (u32 (Z.of_nat (size (Resourses p)))) (Encoding p)
  ++ flat_map put_resourceInfo
       (index_entries p ids (start_offset p)
        ++ [ {| id := 0; offset := end_offset p ids (start_offset p) |} ])
  ++ payload p ids.

(** The resource loop of [Read] seen on the list of index entries that are
    still to be served: the same body, without the indices. *)
Fixpoint read_entries (es : list resourceInfo) (res : gmap Z (list byte))
    : M Reader (gmap Z (list byte)) :=
  match es with
  | ri :: es' =>
      match es' with
      | ri' :: _ =>
          rd ← Reader_Read (u32 (offset ri' - offset ri));
          match rd with
          | (_, Some err) => fail err
          | (resData, None) =>
              if decide (u32 (Z.of_nat (length resData)) ≠ u32 (offset ri' - offset ri))
              then fail (ErrReadResource (id ri))
              else read_entries es' (<[id ri := resData]> res)
          end
      | [] => mret res
      end
  | [] => mret res
  end.

(** What [Read] returns once header and index have been read and the last
    id has been found to be zero. *)
Definition Read_resources (version encoding : Z) (es : list resourceInfo)
    (r : Reader) : result PakFile :=
  match read_entries es ∅ r with
  | Ok (res, _) => Ok {| Version := version; Encoding := encoding; Resourses := res |}
  | Err e => Err e
  | Panic => Panic
  end.

(** The number of payload bytes of a table. *)
Definition total_payload (p : PakFile) : nat :=
  sum_list_with (λ kd, length kd.2) (map_to_list (Resourses p)).

(** An index entry with its offset moved by [delta], as a uint32. *)
Definition shift (delta : Z) (ri : resourceInfo) : resourceInfo :=
  {| id := id ri; offset := u32 (offset ri + delta) |}.

(** ** More examples *)

(** A resource of exactly 4 GiB: its length is [0] as a uint32. *)
Definition data_4GiB : list byte := replicate (Z.to_nat (2 ^ 32)) Byte.x00.

Definition pak_4GiB : PakFile :=
  {| Version := 4; Encoding := EncodingBinary;
     Resourses := {[ 1 := data_4GiB ]} |}.

(** The table built by the assignments [p.Resourses[k] = d], in the order
    of the list. *)
(** An index of 2^32 entries: 2^32 - 1 entries of the resource 1 and a last
    entry with the id 9. *)
Definition index_max : list resourceInfo :=
  replicate (Z.to_nat (2 ^ 32 - 1)) {| id := 1; offset := 0 |}.

Definition build (version encoding : Z) (kds : list (Z * list byte)) : PakFile :=
  {| Version := version; Encoding := encoding; Resourses := insert_all ∅ kds |}.

Definition pak_id0 : PakFile :=
  {| Version := 4; Encoding := EncodingUTF8;
     Resourses := <[7 := [Byte.x62]]> (<[0 := [Byte.x61]]> ∅) |}.

Definition fs_example : FileSystem :=
  {| files := {[ "resources.pak"%string := [Byte.xff] ]}; no_create := ∅ |}.


(** Closed instances of [is_u8], [is_u16] and [is_u32], and of decidable
    side conditions, are settled by evaluation. *)
Ltac in_range := vm_compute; split; [discriminate | reflexivity].
Ltac by_decide := apply (bool_decide_unpack _); vm_compute; exact I.
Ltac valid_infos :=
  cbn [app];
  repeat (apply List.Forall_cons; [split; in_range|]); apply List.Forall_nil.

(** ** Stepping the monad *)

Lemma bind_Ok {S A B} (c : M S A) (k : A → M S B) s a s' :
  c s = Ok (a, s') → (c ≫= k) s = k a s'.
Proof. intros H. unfold mbind, M_bind. by rewrite H. Qed.

Lemma bind_Err {S A B} (c : M S A) (k : A → M S B) s e :
  c s = Err e → (c ≫= k) s = Err e.
Proof. intros H. unfold mbind, M_bind. by rewrite H. Qed.

Lemma bind_Panic {S A B} (c : M S A) (k : A → M S B) s :
  c s = Panic → (c ≫= k) s = Panic.
Proof. intros H. unfold mbind, M_bind. by rewrite H. Qed.

Lemma length_le_split' n v : length (le_split n v) = n.
Proof. apply length_le_split. Qed.

Lemma io_ReadFull_app n (bs rest : list byte) :
  length bs = n → io_ReadFull n (bs ++ rest) = Ok (bs, rest).
Proof.
  intros <-. unfold io_ReadFull.
  rewrite decide_True by (rewrite length_app; lia).
  by rewrite take_app_length, drop_app_length.
Qed.

Lemma binary_Read_le_split n v rest :
  binary_Read n (le_split n v ++ rest) = Ok (v mod 2 ^ (Z.of_nat n * 8), rest).
Proof.
  unfold binary_Read.
  erewrite bind_Ok by (apply io_ReadFull_app, length_le_split).
  by rewrite le_combine_split.
Qed.

Lemma binary_Read_u8 v rest :
  is_u8 v → binary_Read 1 (le_split 1 v ++ rest) = Ok (v, rest).
Proof.
  intros Hv. rewrite binary_Read_le_split.
  change (2 ^ (Z.of_nat 1 * 8)) with (2 ^ 8). by rewrite Z.mod_small.
Qed.

Lemma binary_Read_u16 v rest :
  is_u16 v → binary_Read 2 (le_split 2 v ++ rest) = Ok (v, rest).
Proof.
  intros Hv. rewrite binary_Read_le_split.
  change (2 ^ (Z.of_nat 2 * 8)) with (2 ^ 16). by rewrite Z.mod_small.
Qed.

Lemma binary_Read_u32 v rest :
  is_u32 v → binary_Read 4 (le_split 4 v ++ rest) = Ok (v, rest).
Proof.
  intros Hv. rewrite binary_Read_le_split.
  change (2 ^ (Z.of_nat 4 * 8)) with (2 ^ 32). by rewrite Z.mod_small.
Qed.

Lemma binary_Write_eq n v w :
  binary_Write n v w = Ok (tt, w ++ le_split n v).
Proof. reflexivity. Qed.

Lemma u32_range z : is_u32 (u32 z).
Proof. unfold is_u32, u32. apply Z.mod_pos_bound. lia. Qed.

Lemma u32_small z : is_u32 z → u32 z = z.
Proof. intros H. unfold u32. by apply Z.mod_small. Qed.

Lemma u16_small z : is_u16 z → u16 z = z.
Proof. intros H. unfold u16. by apply Z.mod_small. Qed.

(** ** The layout of what [Write] writes *)

Lemma write_resInfos_eq p ids curOffset w :
  write_resInfos p ids curOffset w =
  Ok (end_offset p ids curOffset,
      w ++ flat_map put_resourceInfo (index_entries p ids curOffset)).
Proof.
  revert curOffset w. induction ids as [|i ids IH]; intros curOffset w; simpl.
  - by rewrite app_nil_r.
  - erewrite bind_Ok by apply binary_Write_eq.
    erewrite bind_Ok by apply binary_Write_eq.
    rewrite IH. unfold put_resourceInfo at 2. simpl id. simpl offset.
    by rewrite <- !app_assoc.
Qed.

Lemma write_resources_eq p ids w :
  write_resources p ids w = Ok (tt, w ++ payload p ids).
Proof.
  revert w. induction ids as [|i ids IH]; intros w; simpl.
  - unfold payload. simpl. by rewrite app_nil_r.
  - erewrite bind_Ok by reflexivity. cbv beta iota.
    rewrite decide_False by (intros H; by apply H).
    rewrite IH. unfold payload. simpl. by rewrite <- app_assoc.
Qed.

Lemma Write_layout range_order p :
  Write range_order (Some p) = Ok (layout p (sort_Ints range_order)).
Proof.
  unfold Write, Write_M.
  erewrite bind_Ok by apply binary_Write_eq.
  erewrite bind_Ok by apply binary_Write_eq.
  erewrite bind_Ok by apply binary_Write_eq.
  erewrite bind_Ok by apply write_resInfos_eq.
  erewrite bind_Ok by apply binary_Write_eq.
  erewrite bind_Ok by apply binary_Write_eq.
  rewrite write_resources_eq. f_equal.
  unfold layout, put_header, start_offset. rewrite flat_map_app.
  change (flat_map put_resourceInfo [?x]) with (put_resourceInfo x ++ []).
  unfold put_resourceInfo at 2. cbn [id offset].
  change (u16 0) with 0. rewrite app_nil_r.
  by rewrite <- !app_assoc.
Qed.

(** ** Reading a file back *)

Lemma read_resInfos_put es rest :
  Forall valid_resourceInfo es →
  read_resInfos (length es) (flat_map put_resourceInfo es ++ rest) = Ok (es, rest).
Proof.
  induction 1 as [|[i o] es [Hi Ho] _ IH]; [done|].
  cbn [read_resInfos flat_map length id offset] in *.
  unfold put_resourceInfo at 1. cbn [id offset].
  rewrite <- !app_assoc.
  erewrite bind_Ok by (by apply binary_Read_u16).
  erewrite bind_Ok by (by apply binary_Read_u32).
  by erewrite bind_Ok by apply IH.
Qed.

Lemma index_middle {S} (pre post : list resourceInfo) ri (s : S) :
  index (pre ++ ri :: post) (Z.of_nat (length pre)) s = Ok (ri, s).
Proof.
  unfold index. rewrite decide_True by (rewrite length_app; simpl; lia).
  by rewrite Nat2Z.id, list_lookup_middle.
Qed.

Lemma read_resources_entries n pre es res r :
  length es = S n →
  read_resources (pre ++ es) n (Z.of_nat (length pre)) res r = read_entries es res r.
Proof.
  revert pre es res r. induction n as [|n IH]; intros pre es res r Hlen.
  - destruct es as [|ri [|ri' es]]; simplify_eq/=. done.
  - destruct es as [|ri [|ri' es]]; simplify_eq/=.
    erewrite bind_Ok by apply index_middle.
    erewrite bind_Ok.
    2:{ replace (pre ++ ri :: ri' :: es) with ((pre ++ [ri]) ++ ri' :: es)
          by (by rewrite <- app_assoc).
        replace (Z.of_nat (length pre) + 1) with (Z.of_nat (length (pre ++ [ri])))
          by (rewrite length_app; simpl; lia).
        apply index_middle. }
    unfold mbind, M_bind.
    destruct (Reader_Read _ r) as [[[resData [err|]] r']| |]; try done.
    case_decide; [done|].
    replace (pre ++ ri :: ri' :: es) with ((pre ++ [ri]) ++ ri' :: es)
      by (by rewrite <- app_assoc).
    replace (Z.of_nat (length pre) + 1) with (Z.of_nat (length (pre ++ [ri])))
      by (rewrite length_app; simpl; lia).
    apply IH. simpl. lia.
Qed.

(** A stream that starts with a header and an index of
    [numberOfResources + 1] entries: [Read] checks the last id and then
    serves the entries from what follows. *)
Lemma Read_raw version numberOfResources encoding es last body :
  is_u32 version → is_u32 numberOfResources → is_u8 encoding →
  Forall valid_resourceInfo (es ++ [last]) →
  Z.of_nat (length (es ++ [last])) = u32 (numberOfResources + 1) →
  Read (put_header version numberOfResources encoding
        ++ flat_map put_resourceInfo (es ++ [last]) ++ body) =
  if decide (id last ≠ 0) then Err ErrLastId
  else Read_resources version encoding (es ++ [last]) body.
Proof.
  intros Hv Hn He Hes Hlen'.
  assert (Hlen : Z.of_nat (length es) = numberOfResources).
  { rewrite length_app in Hlen'. simpl in Hlen'. unfold is_u32 in Hn.
    destruct (decide (numberOfResources + 1 < 2 ^ 32)) as [Hlt|Hge].
    - rewrite u32_small in Hlen' by (unfold is_u32; lia). lia.
    - exfalso. replace (numberOfResources + 1) with (2 ^ 32) in Hlen' by lia.
      change (u32 (2 ^ 32)) with 0 in Hlen'. lia. }
  apply (f_equal Z.to_nat) in Hlen'. rewrite Nat2Z.id in Hlen'.
  unfold Read, Read_M, put_header. rewrite <- !app_assoc.
  erewrite bind_Ok by (by apply binary_Read_u32).
  erewrite bind_Ok by (by apply binary_Read_u32).
  erewrite bind_Ok by (by apply binary_Read_u8).
  rewrite <- Hlen'.
  erewrite bind_Ok by (by apply read_resInfos_put).
  erewrite bind_Ok by (rewrite <- Hlen; apply index_middle).
  case_decide; [done|].
  unfold Read_resources.
  pose proof (read_resources_entries (length es) [] (es ++ [last]) ∅ body) as Heq.
  simpl in Heq. rewrite <- Heq by (rewrite length_app; simpl; lia).
  rewrite <- Hlen, Nat2Z.id.
  unfold mbind at 1, M_bind at 1.
  by destruct (read_resources _ _ _ _ _) as [[res r']| |].
Qed.

Lemma Reader_Read_app (d rest : list byte) :
  Reader_Read (Z.of_nat (length d)) (d ++ rest) = Ok ((d, None), rest).
Proof.
  unfold Reader_Read. destruct d as [|b d]; [done|].
  rewrite decide_False by (simpl; lia).
  rewrite Nat2Z.id. cbn [app]. change (b :: d ++ rest) with ((b :: d) ++ rest).
  by rewrite take_app_length, drop_app_length.
Qed.

Lemma read_entries_step ri ri' es d rest res :
  Z.of_nat (length d) = u32 (offset ri' - offset ri) →
  read_entries (ri :: ri' :: es) res (d ++ rest) =
  read_entries (ri' :: es) (<[id ri := d]> res) rest.
Proof.
  intros Hd. cbn [read_entries]. rewrite <- Hd.
  erewrite bind_Ok by apply Reader_Read_app. cbv beta iota.
  rewrite decide_False; [done|].
  intros Hne. apply Hne. rewrite Hd. apply u32_small, u32_range.
Qed.

Lemma read_entries_short ri ri' es tail res :
  Z.of_nat (length tail) < u32 (offset ri' - offset ri) →
  read_entries (ri :: ri' :: es) res tail =
  Err (match tail with [] => io_EOF | _ => ErrReadResource (id ri) end).
Proof.
  intros Hlt. cbn [read_entries]. unfold mbind, M_bind, Reader_Read.
  rewrite decide_False by lia.
  destruct tail as [|b tail]; [done|].
  rewrite take_ge by lia.
  rewrite decide_True; [done|].
  pose proof (u32_range (offset ri' - offset ri)) as Hr. unfold is_u32 in Hr.
  rewrite u32_small by (unfold is_u32; lia). lia.
Qed.

Lemma read_entries_ok es ds res rest :
  declared es ds →
  read_entries es res (concat ds ++ rest) =
  Ok (insert_all res (zip (id <$> es) ds), rest).
Proof.
  revert ds res. induction es as [|ri es IH]; intros ds res Hd; [done|].
  destruct es as [|ri' es].
  - destruct ds; [done|]. simpl in Hd. done.
  - destruct ds as [|d ds]; [done|]. destruct Hd as [Hd Hds].
    cbn [concat]. rewrite <- app_assoc.
    rewrite read_entries_step by done. by rewrite IH.
Qed.

Lemma read_entries_truncated es1 ri ri' es2 ds tail res :
  declared (es1 ++ [ri]) ds →
  Z.of_nat (length tail) < u32 (offset ri' - offset ri) →
  read_entries (es1 ++ ri :: ri' :: es2) res (concat ds ++ tail) =
  Err (match tail with [] => io_EOF | _ => ErrReadResource (id ri) end).
Proof.
  revert ds res. induction es1 as [|a es1 IH]; intros ds res Hd Hlt.
  - destruct ds; [|done]. by apply read_entries_short.
  - destruct ds as [|d ds].
    { destruct es1; done. }
    assert (Hd' : ∃ b l l', es1 ++ [ri] = b :: l ∧ es1 ++ ri :: ri' :: es2 = b :: l'
                   ∧ Z.of_nat (length d) = u32 (offset b - offset a)).
    { destruct es1 as [|b es1]; simpl in *; destruct Hd as [Hlen _];
        eexists _, _, _; eauto. }
    destruct Hd' as (b & l & l' & E1 & E2 & Hlen).
    cbn [concat app]. rewrite <- app_assoc.
    change ((a :: es1) ++ ri :: ri' :: es2) with (a :: (es1 ++ ri :: ri' :: es2)).
    rewrite E2. rewrite read_entries_step by done. rewrite <- E2.
    apply IH; [|done].
    change ((a :: es1) ++ [ri]) with (a :: (es1 ++ [ri])) in Hd.
    rewrite E1 in *. by destruct Hd.
Qed.

(** ** The map built from the index *)

Lemma insert_all_snoc res kds k d :
  insert_all res (kds ++ [(k, d)]) = <[k := d]> (insert_all res kds).
Proof. unfold insert_all. by rewrite foldl_app. Qed.

Lemma insert_all_not_in res kds k :
  k ∉ kds.*1 → insert_all res kds !! k = res !! k.
Proof.
  revert res. induction kds as [|[k' d'] kds IH]; intros res Hk; [done|].
  cbn [insert_all foldl] in *. rewrite fmap_cons, not_elem_of_cons in Hk.
  destruct Hk as [Hne Hk]. fold (insert_all (<[k' := d']> res) kds).
  rewrite IH by done. by rewrite lookup_insert_ne.
Qed.

(** The last entry with a given id is the one that stays. *)
Lemma insert_all_last res kds1 k d kds2 :
  k ∉ kds2.*1 → insert_all res (kds1 ++ (k, d) :: kds2) !! k = Some d.
Proof.
  intros Hk. unfold insert_all. rewrite foldl_app. cbn [foldl].
  fold (insert_all res kds1).
  fold (insert_all (<[k := d]> (insert_all res kds1)) kds2).
  rewrite insert_all_not_in by done. apply lookup_insert_eq.
Qed.

Lemma insert_all_lookup (f : Z → list byte) res ks k :
  insert_all res (zip ks (f <$> ks)) !! k =
  if decide (k ∈ ks) then Some (f k) else res !! k.
Proof.
  revert res. induction ks as [|i ks IH]; intros res.
  - by rewrite decide_False by apply not_elem_of_nil.
  - cbn [fmap list_fmap zip zip_with insert_all foldl].
    change (list_fmap _ _ f ks) with (f <$> ks).
    fold (insert_all (<[i := f i]> res) (zip ks (f <$> ks))).
    rewrite IH. destruct (decide (k = i)) as [->|Hne].
    + rewrite lookup_insert_eq. rewrite (decide_True (P := i ∈ i :: ks)) by left.
      by case_decide.
    + rewrite lookup_insert_ne by done.
      destruct (decide (k ∈ ks)) as [Hin|Hnin].
      * by rewrite decide_True by (by right).
      * rewrite decide_False; [done|]. rewrite elem_of_cons. by intros [?|?].
Qed.

(** ** The order of the ids *)

Lemma sort_Ints_Permutation ids : sort_Ints ids ≡ₚ ids.
Proof. apply merge_sort_Permutation. Qed.

Lemma sort_Ints_length ids : length (sort_Ints ids) = length ids.
Proof. apply Permutation_length, sort_Ints_Permutation. Qed.

Lemma sort_Ints_Sorted ids : Sorted Z.le (sort_Ints ids).
Proof. apply (Sorted_merge_sort Z.le). Qed.

(** [sort.Ints] forgets the order it was given. *)
Lemma sort_Ints_perm ids1 ids2 : ids1 ≡ₚ ids2 → sort_Ints ids1 = sort_Ints ids2.
Proof.
  intros Hp. apply (Sorted_unique Z.le); try apply sort_Ints_Sorted.
  by rewrite !sort_Ints_Permutation.
Qed.

Lemma range_of_NoDup m range_order : range_of m range_order → NoDup range_order.
Proof. intros ->. apply NoDup_fst_map_to_list. Qed.

Lemma range_of_elem m range_order k :
  range_of m range_order → k ∈ range_order ↔ is_Some (m !! k).
Proof.
  intros ->. rewrite list_elem_of_fmap. split.
  - intros [[k' d] [-> Hin]]. apply elem_of_map_to_list in Hin. by exists d.
  - intros [d Hd]. exists (k, d). split; [done|]. by apply elem_of_map_to_list.
Qed.

Lemma range_of_length m range_order :
  range_of m range_order → length range_order = size m.
Proof. intros ->. by rewrite length_fmap, length_map_to_list. Qed.

Lemma range_of_keys p : range_of (Resourses p) (keys p).
Proof. by unfold range_of, keys. Qed.

Lemma sort_Ints_elem m range_order k :
  range_of m range_order → k ∈ sort_Ints range_order ↔ is_Some (m !! k).
Proof.
  intros Hr. rewrite sort_Ints_Permutation. by apply range_of_elem.
Qed.

Lemma Sorted_le_NoDup_lt (l : list Z) : Sorted Z.le l → NoDup l → Sorted Z.lt l.
Proof.
  intros Hs Hn. apply Sorted_StronglySorted in Hs; [|apply _].
  apply StronglySorted_Sorted.
  induction Hs as [|x l Hs IH Hall]; [constructor|].
  apply NoDup_cons in Hn as [Hx Hn]. constructor; [by apply IH|].
  rewrite Forall_forall in *. intros y Hy.
  assert (x ≠ y) by (intros ->; by apply Hx, list_elem_of_In).
  specialize (Hall y Hy). lia.
Qed.

Lemma sort_Ints_ascending m range_order :
  range_of m range_order → Sorted Z.lt (sort_Ints range_order).
Proof.
  intros Hr. apply Sorted_le_NoDup_lt; [apply sort_Ints_Sorted|].
  rewrite sort_Ints_Permutation. by eapply range_of_NoDup.
Qed.

(** A table holds at most as many resources as there are uint16 ids. *)
Lemma valid_size p : valid_PakFile p → Z.of_nat (size (Resourses p)) ≤ 2 ^ 16.
Proof.
  intros (_ & _ & Hk).
  rewrite <- (range_of_length _ _ (range_of_keys p)).
  assert (Hsub : keys p ⊆+ seqZ 0 (2 ^ 16)).
  { apply NoDup_submseteq; [apply (range_of_NoDup _ _ (range_of_keys p))|].
    intros k Hin. apply (range_of_elem _ _ _ (range_of_keys p)) in Hin as [d Hd].
    apply Hk in Hd. apply elem_of_seqZ. unfold is_u16 in Hd. lia. }
  apply submseteq_length in Hsub. rewrite length_seqZ in Hsub. lia.
Qed.

Lemma fmap_u16_small (ids : list Z) : Forall is_u16 ids → u16 <$> ids = ids.
Proof.
  induction 1 as [|i ids Hi _ IH]; [done|].
  cbn [fmap list_fmap] in *. by rewrite u16_small, IH.
Qed.

Lemma valid_sorted_is_u16 p range_order :
  valid_PakFile p → range_of (Resourses p) range_order →
  Forall is_u16 (sort_Ints range_order).
Proof.
  intros (_ & _ & Hk) Hr. apply Forall_forall. intros k Hin.
  apply (sort_Ints_elem (Resourses p) range_order) in Hin as [d Hd]; [|done].
  by apply Hk in Hd.
Qed.

(** ** The offsets of the index *)

Lemma index_entries_length p ids c : length (index_entries p ids c) = length ids.
Proof. revert c. induction ids as [|i ids IH]; intros c; simpl; [done|]. by rewrite IH. Qed.

Lemma index_entries_ids p ids c : id <$> index_entries p ids c = u16 <$> ids.
Proof.
  revert c. induction ids as [|i ids IH]; intros c; [done|].
  cbn [index_entries fmap list_fmap id]. f_equal. apply IH.
Qed.

Lemma end_offset_range p ids c : is_u32 c → is_u32 (end_offset p ids c).
Proof.
  revert c. induction ids as [|i ids IH]; intros c Hc; [done|].
  cbn [end_offset]. apply IH, u32_range.
Qed.

Lemma index_entries_valid p ids c :
  is_u32 c → Forall valid_resourceInfo (index_entries p ids c).
Proof.
  revert c. induction ids as [|i ids IH]; intros c Hc; [constructor|].
  cbn [index_entries]. constructor.
  - split; [|done]. unfold is_u16, u16. cbn [id]. apply Z.mod_pos_bound. lia.
  - apply IH, u32_range.
Qed.

Lemma u32_diff c n : is_u32 n → u32 (u32 (c + u32 n) - c) = n.
Proof.
  intros Hn. rewrite (u32_small n) by done. unfold u32.
  rewrite Zminus_mod_idemp_l. replace (c + n - c) with n by lia.
  by apply Z.mod_small.
Qed.

(** The payloads follow one another at the offsets of the index, the last
    entry giving the end of the last one. *)
Lemma index_entries_declared p ids c :
  Forall (λ i, is_u32 (Z.of_nat (length (resource p (u16 i))))) ids →
  declared (index_entries p ids c ++ [ {| id := 0; offset := end_offset p ids c |} ])
           ((λ i, resource p (u16 i)) <$> ids).
Proof.
  intros Hall. revert c. induction Hall as [|i ids Hi _ IH]; intros c; [done|].
  cbn [index_entries end_offset fmap list_fmap app].
  specialize (IH (u32 (c + u32 (Z.of_nat (length (resource p (u16 i))))))).
  destruct ids as [|j ids]; cbn [index_entries end_offset app declared offset] in *.
  - split; [|done]. by rewrite u32_diff.
  - split; [|done]. by rewrite u32_diff.
Qed.

(** ** Reading back what was written *)

Lemma start_offset_valid p :
  valid_PakFile p →
  u32 (Z.of_nat (size (Resourses p))) = Z.of_nat (size (Resourses p)) ∧
  start_offset p = 9 + 6 * (Z.of_nat (size (Resourses p)) + 1).
Proof.
  intros Hp. pose proof (valid_size p Hp) as Hs. unfold start_offset, headerLength.
  rewrite !u32_small; unfold is_u32; try lia.
  all: rewrite ?u32_small; unfold is_u32; try lia.
  all: rewrite ?u32_small; unfold is_u32; lia.
Qed.

Lemma zip_app_same_length {A B} (l1 l2 : list A) (k : list B) :
  length l1 = length k → zip (l1 ++ l2) k = zip l1 k.
Proof.
  revert k. induction l1 as [|x l1 IH]; intros [|y k] Hlen; simplify_eq/=.
  - by destruct l2.
  - by rewrite IH.
Qed.

Lemma Read_layout p ids :
  valid_PakFile p →
  length ids = size (Resourses p) →
  Forall (λ i, is_u32 (Z.of_nat (length (resource p (u16 i))))) ids →
  Read (layout p ids) =
  Ok {| Version := Version p; Encoding := Encoding p;
        Resourses := insert_all ∅ (zip (u16 <$> ids)
                                       ((λ i, resource p (u16 i)) <$> ids)) |}.
Proof.
  intros Hp Hlen Hall. pose proof Hp as (Hv & He & _).
  destruct (start_offset_valid p Hp) as [Hn Hstart].
  pose proof (valid_size p Hp) as Hsize.
  unfold layout. rewrite Read_raw; try done.
  - rewrite decide_False by (intros H; by apply H).
    unfold Read_resources, payload.
    rewrite <- (app_nil_r (concat _)).
    rewrite read_entries_ok by (by apply index_entries_declared).
    rewrite fmap_app, index_entries_ids.
    by rewrite zip_app_same_length by (by rewrite !length_fmap).
  - apply u32_range.
  - apply Forall_app. split.
    + apply index_entries_valid, u32_range.
    + repeat constructor; cbn [id offset]; unfold is_u16; try lia.
      all: apply end_offset_range, u32_range.
  - rewrite length_app, index_entries_length, Hlen, Hn. simpl.
    rewrite u32_small; unfold is_u32; lia.
Qed.

Lemma insert_all_sorted p range_order :
  valid_PakFile p → range_of (Resourses p) range_order →
  insert_all ∅ (zip (u16 <$> sort_Ints range_order)
                    ((λ i, resource p (u16 i)) <$> sort_Ints range_order))
  = Resourses p.
Proof.
  intros Hp Hr. pose proof (valid_sorted_is_u16 p range_order Hp Hr) as Hu.
  rewrite fmap_u16_small by done.
  replace ((λ i, resource p (u16 i)) <$> sort_Ints range_order)
    with (resource p <$> sort_Ints range_order).
  2:{ apply Forall_fmap_ext_1. eapply Forall_impl; [exact Hu|].
      intros i Hi. cbv beta. by rewrite u16_small. }
  apply map_eq. intros k. rewrite insert_all_lookup.
  case_decide as Hin.
  - apply (sort_Ints_elem (Resourses p)) in Hin as [d Hd]; [|done].
    unfold resource. by rewrite Hd.
  - rewrite lookup_empty. symmetry. apply eq_None_not_Some.
    intros Hs. by apply Hin, (sort_Ints_elem (Resourses p)).
Qed.

Lemma Read_Write p range_order :
  valid_PakFile p → range_of (Resourses p) range_order →
  map_Forall (λ _ d, Z.of_nat (length d) < 2 ^ 32) (Resourses p) →
  Read (layout p (sort_Ints range_order)) = Ok p.
Proof.
  intros Hp Hr Hlen.
  pose proof (valid_sorted_is_u16 p range_order Hp Hr) as Hu.
  rewrite Read_layout; try done.
  - rewrite insert_all_sorted by done. by destruct p.
  - rewrite sort_Ints_Permutation. by apply range_of_length.
  - apply Forall_forall. intros i Hin.
    assert (Hi : is_u16 i) by (by eapply Forall_forall in Hu).
    rewrite u16_small by done.
    apply (sort_Ints_elem (Resourses p)) in Hin as [d Hd]; [|done].
    unfold resource. rewrite Hd. simpl. apply Hlen in Hd. unfold is_u32. lia.
Qed.

Lemma layout_length p ids :
  length (layout p ids) = (9 + 6 * (length ids + 1) + length (payload p ids))%nat.
Proof.
  unfold layout, put_header. rewrite !length_app, !length_le_split.
  rewrite flat_map_app, length_app.
  assert (Hfm : ∀ es, length (flat_map put_resourceInfo es) = (6 * length es)%nat).
  { induction es as [|e es IH]; [done|]. cbn [flat_map length].
    rewrite length_app, IH. unfold put_resourceInfo.
    rewrite length_app, !length_le_split. lia. }
  rewrite !Hfm, index_entries_length. simpl. lia.
Qed.

(** ** Round trip *)

Lemma Read_Write_wrapped version encoding (d : list byte) :
  is_u32 version → is_u8 encoding →
  Z.of_nat (length d) = 2 ^ 32 →
  let p := {| Version := version; Encoding := encoding; Resourses := {[ 1 := d ]} |} in
  Read (layout p [1]) =
  Ok {| Version := version; Encoding := encoding; Resourses := {[ 1 := [] ]} |}.
Proof.
  intros Hv He Hd p.
  assert (Hres : resource p (u16 1) = d).
  { unfold resource, p. cbn [Resourses]. change (u16 1) with 1.
    by rewrite lookup_singleton_eq. }
  unfold layout, start_offset, payload.
  cbn [index_entries end_offset fmap list_fmap concat].
  rewrite Hres, Hd. subst p. cbn [Version Encoding Resourses].
  rewrite map_size_singleton. rewrite app_nil_r.
  change (u32 (Z.of_nat 1)) with 1.
  change (u32 (headerLength + u32 ((2 + 4) * u32 (1 + 1)))) with 21.
  change (u32 (21 + u32 (2 ^ 32))) with 21. change (u16 1) with 1.
  rewrite (Read_raw version 1 encoding [ {| id := 1; offset := 21 |} ]
             {| id := 0; offset := 21 |} d).
  - rewrite decide_False by (intros H; by apply H).
    unfold Read_resources. cbn [app].
    rewrite <- (app_nil_l d).
    rewrite read_entries_step by done. cbn [read_entries id].
    by rewrite insert_empty.
  - done.
  - done.
  - done.
  - repeat constructor; cbn [id offset]; unfold is_u16, is_u32; lia.
  - done.
Qed.

Lemma data_4GiB_length : Z.of_nat (length data_4GiB) = 2 ^ 32.
Proof. unfold data_4GiB. rewrite length_replicate. apply Z2Nat.id. lia. Qed.

#[global] Opaque data_4GiB.

Lemma range_of_singleton k d : range_of {[ k := d ]} [k].
Proof. unfold range_of. by rewrite map_to_list_singleton. Qed.

(** C1, as stated, fails for a payload of 4 GiB: [Write] adds its length to
    the offsets as a uint32, that is zero, and [Read] returns the resource
    empty. *)
Lemma roundtrip_counterexample :
  is_u32 (Version pak_4GiB) ∧ is_u8 (Encoding pak_4GiB) ∧
  map_Forall (λ k _, 1 ≤ k ≤ 65535) (Resourses pak_4GiB) ∧
  range_of (Resourses pak_4GiB) [1] ∧
  ∃ out, Write [1] (Some pak_4GiB) = Ok out ∧ Read out ≠ Ok pak_4GiB.
Proof.
  split; [unfold is_u32, pak_4GiB; cbn [Version]; lia|].
  split; [unfold is_u8, pak_4GiB; cbn [Encoding]; unfold EncodingBinary; lia|].
  split; [intros k d Hk; unfold pak_4GiB in Hk; cbn [Resourses] in Hk;
          apply lookup_singleton_Some in Hk as [<- _]; lia|].
  split; [apply range_of_singleton|].
  exists (layout pak_4GiB [1]). split; [apply (Write_layout [1])|].
  unfold pak_4GiB at 1.
  rewrite (Read_Write_wrapped 4 EncodingBinary _ ltac:(done) ltac:(done) data_4GiB_length).
  intros Heq.
  apply (f_equal (λ r, match r with
                       | Ok p => Z.of_nat (length (default [] (Resourses p !! 1)))
                       | _ => 0
                       end)) in Heq.
  unfold pak_4GiB in Heq. cbn [Resourses] in Heq.
  rewrite !lookup_singleton_eq in Heq. cbn [default Datatypes.id] in Heq.
  rewrite data_4GiB_length in Heq. cbn [length] in Heq. lia.
Qed.

(** C1 (amended): for every table with identifiers in 1..=65535 and
    payloads shorter than 2^32 bytes (the empty one included), reading the
    bytes [Write] produces gives the table back: same version, same
    encoding, same identifier-to-bytes mapping. *)
Theorem Read_Write_roundtrip p range_order :
  is_u32 (Version p) → is_u8 (Encoding p) →
  map_Forall (λ k d, 1 ≤ k ≤ 65535 ∧ Z.of_nat (length d) < 2 ^ 32) (Resourses p) →
  range_of (Resourses p) range_order →
  ∃ out, Write range_order (Some p) = Ok out ∧ Read out = Ok p.
Proof.
  intros Hv He Hm Hr. exists (layout p (sort_Ints range_order)).
  split; [apply Write_layout|].
  apply Read_Write; [|done|].
  - split; [done|]. split; [done|].
    intros k d Hk. apply Hm in Hk. unfold is_u16. lia.
  - intros k d Hk. apply Hm in Hk. cbv beta in *. lia.
Qed.

Lemma Read_Write_roundtrip_witness :
  ∃ out, Write [300; 7] (Some pak_ab) = Ok out ∧ Read out = Ok pak_ab.
Proof.
  apply (Read_Write_roundtrip pak_ab [300; 7]).
  - in_range.
  - in_range.
  - by_decide.
  - by_decide.
Defined.

(** ** Determinism *)

(** C2: [Write] is deterministic. Two tables with the same version, the
    same encoding and the same identifier-to-bytes mapping are written as
    the same bytes, whatever the order in which [range] yields their keys
    (the only trace the order of the insertions leaves in a Go map). *)
Theorem Write_deterministic p1 p2 range_order1 range_order2 :
  Version p1 = Version p2 → Encoding p1 = Encoding p2 →
  (∀ k, Resourses p1 !! k = Resourses p2 !! k) →
  range_of (Resourses p1) range_order1 →
  range_of (Resourses p2) range_order2 →
  Write range_order1 (Some p1) = Write range_order2 (Some p2).
Proof.
  intros Hv He Hm Hr1 Hr2. apply map_eq in Hm.
  destruct p1 as [v1 e1 m1], p2 as [v2 e2 m2]. simplify_eq/=.
  rewrite !Write_layout. f_equal. f_equal.
  apply sort_Ints_perm. unfold range_of in *. by rewrite Hr1, Hr2.
Qed.

Lemma Write_deterministic_witness :
  Write [300; 7] (Some (build 4 1 [(300, [Byte.x62]); (7, [Byte.x61])])) =
  Write [7; 300] (Some (build 4 1 [(7, [Byte.x61]); (300, [Byte.x62])])).
Proof.
  apply Write_deterministic.
  - reflexivity.
  - reflexivity.
  - intros k. reflexivity.
  - by_decide.
  - by_decide.
Defined.

(** ** Small tables *)

Lemma range_of_empty range_order : range_of ∅ range_order → range_order = [].
Proof.
  unfold range_of. rewrite map_to_list_empty. apply Permutation_nil_r.
Qed.

Lemma range_of_singleton_inv k d range_order :
  range_of {[ k := d ]} range_order → range_order = [k].
Proof.
  unfold range_of. rewrite map_to_list_singleton. apply Permutation_singleton_r.
Qed.

Lemma layout_empty version encoding :
  layout {| Version := version; Encoding := encoding; Resourses := ∅ |} [] =
  put_header version 0 encoding ++ put_resourceInfo {| id := 0; offset := 15 |}.
Proof.
  unfold layout, start_offset, payload. cbn [Version Encoding Resourses].
  rewrite map_size_empty. cbn [index_entries end_offset app flat_map fmap list_fmap concat].
  by rewrite !app_nil_r.
Qed.

Lemma layout_singleton_empty version encoding k :
  is_u16 k →
  layout {| Version := version; Encoding := encoding; Resourses := {[ k := [] ]} |} [k] =
  put_header version 1 encoding
  ++ put_resourceInfo {| id := k; offset := 21 |}
  ++ put_resourceInfo {| id := 0; offset := 21 |}.
Proof.
  intros Hk. unfold layout, start_offset, payload, resource.
  cbn [Version Encoding Resourses].
  rewrite map_size_singleton.
  cbn [index_entries end_offset app flat_map fmap list_fmap concat].
  rewrite (u16_small k) by done. unfold resource. cbn [Resourses].
  rewrite lookup_singleton_eq. by rewrite !app_nil_r.
Qed.

(** C6: a table with no resources is written as exactly 15 bytes, the
    9-byte header followed by the terminal index entry (0, 15); reading
    those bytes gives a table with no resources and the same version and
    encoding. *)
Theorem empty_table version encoding range_order :
  is_u32 version → is_u8 encoding →
  let p := {| Version := version; Encoding := encoding; Resourses := ∅ |} in
  let out := put_header version 0 encoding
             ++ put_resourceInfo {| id := 0; offset := 15 |} in
  range_of (Resourses p) range_order →
  Write range_order (Some p) = Ok out ∧ length out = 15%nat ∧ Read out = Ok p.
Proof.
  intros Hv He p out Hr. apply range_of_empty in Hr as ->.
  subst p out. rewrite <- layout_empty, Write_layout.
  change (sort_Ints []) with (@nil Z).
  split; [done|]. split.
  - by rewrite layout_length.
  - change (@nil Z) with (sort_Ints []). apply Read_Write.
    + split; [done|]. split; [done|]. apply map_Forall_empty.
    + by unfold range_of.
    + apply map_Forall_empty.
Qed.

Lemma empty_table_witness :
  Write [] (Some pak_empty) =
    Ok (put_header 4 0 1 ++ put_resourceInfo {| id := 0; offset := 15 |})
  ∧ length (put_header 4 0 1 ++ put_resourceInfo {| id := 0; offset := 15 |}) = 15%nat
  ∧ Read (put_header 4 0 1 ++ put_resourceInfo {| id := 0; offset := 15 |})
    = Ok pak_empty.
Proof.
  apply (empty_table 4 1 []).
  - in_range.
  - in_range.
  - by_decide.
Defined.

(** C5: the table with the single resource 5, of no bytes, is written as
    exactly 21 bytes: the 9-byte header, the two 6-byte index entries
    (5, 21) and (0, 21), and no payload. Reading those 21 bytes gives the
    table that maps 5 to the empty byte sequence, and nothing else. *)
Theorem zero_length_resource version encoding range_order :
  is_u32 version → is_u8 encoding →
  let p := {| Version := version; Encoding := encoding; Resourses := {[ 5 := [] ]} |} in
  let out := put_header version 1 encoding
             ++ put_resourceInfo {| id := 5; offset := 21 |}
             ++ put_resourceInfo {| id := 0; offset := 21 |} in
  range_of (Resourses p) range_order →
  Write range_order (Some p) = Ok out ∧ length out = 21%nat ∧ Read out = Ok p.
Proof.
  intros Hv He p out Hr. apply range_of_singleton_inv in Hr as ->.
  subst p out. rewrite <- layout_singleton_empty by (unfold is_u16; lia).
  rewrite Write_layout. change (sort_Ints [5]) with [5].
  split; [done|]. split.
  - by rewrite layout_length.
  - change [5] with (sort_Ints [5]). apply Read_Write.
    + split; [done|]. split; [done|].
      intros k d Hk. cbn [Resourses] in Hk.
      apply lookup_singleton_Some in Hk as [<- _]. unfold is_u16. lia.
    + apply range_of_singleton.
    + intros k d Hk. cbn [Resourses] in Hk.
      apply lookup_singleton_Some in Hk as [_ <-]. simpl. lia.
Qed.

Lemma zero_length_resource_witness :
  Write [5] (Some pak_5) =
    Ok (put_header 4 1 1 ++ put_resourceInfo {| id := 5; offset := 21 |}
        ++ put_resourceInfo {| id := 0; offset := 21 |})
  ∧ length (put_header 4 1 1 ++ put_resourceInfo {| id := 5; offset := 21 |}
            ++ put_resourceInfo {| id := 0; offset := 21 |}) = 21%nat
  ∧ Read (put_header 4 1 1 ++ put_resourceInfo {| id := 5; offset := 21 |}
          ++ put_resourceInfo {| id := 0; offset := 21 |}) = Ok pak_5.
Proof.
  apply (zero_length_resource 4 1 [5]).
  - in_range.
  - in_range.
  - by_decide.
Defined.

(** ** Reading the index off the bytes *)

Lemma put_header_length v n e : length (put_header v n e) = 9%nat.
Proof. unfold put_header. by rewrite !length_app, !length_le_split. Qed.

Lemma put_resourceInfo_length ri : length (put_resourceInfo ri) = 6%nat.
Proof. unfold put_resourceInfo. by rewrite length_app, !length_le_split. Qed.

Lemma drop_index es i rest :
  (i ≤ length es)%nat →
  drop (6 * i) (flat_map put_resourceInfo es ++ rest) =
  flat_map put_resourceInfo (drop i es) ++ rest.
Proof.
  revert es. induction i as [|i IH]; intros es Hi; [done|].
  destruct es as [|e es]; [simpl in Hi; lia|].
  replace (6 * S i)%nat with (6 + 6 * i)%nat by lia.
  cbn [flat_map drop]. rewrite <- drop_drop, <- app_assoc.
  rewrite drop_app_length' by (by rewrite put_resourceInfo_length).
  apply IH. simpl in Hi. lia.
Qed.

Lemma drop_entry v n e es rest i ri :
  es !! i = Some ri →
  drop (9 + 6 * i) (put_header v n e ++ flat_map put_resourceInfo es ++ rest) =
  put_resourceInfo ri ++ flat_map put_resourceInfo (drop (S i) es) ++ rest.
Proof.
  intros Hi.
  rewrite (drop_app_add' _ _ _ (6 * i)) by (by rewrite put_header_length).
  rewrite drop_index by (apply lookup_lt_Some in Hi; lia).
  rewrite (drop_S _ _ _ Hi). cbn [flat_map]. by rewrite <- app_assoc.
Qed.

(** The [i]-th entry of the index is what [written_id] and
    [written_offset] find in the bytes. *)
Lemma written_entry v n e es rest i ri :
  es !! i = Some ri → valid_resourceInfo ri →
  let out := put_header v n e ++ flat_map put_resourceInfo es ++ rest in
  written_id out i = id ri ∧ written_offset out i = offset ri.
Proof.
  intros Hi [Hid Hoff] out. subst out. unfold written_id, written_offset.
  rewrite <- (drop_drop _ 2 (9 + 6 * i)), (drop_entry _ _ _ _ _ _ _ Hi).
  unfold put_resourceInfo at 1 3. rewrite <- !app_assoc.
  rewrite (drop_app_length' _ _ 2) by (by rewrite length_le_split).
  rewrite !take_app_length' by (by rewrite length_le_split).
  rewrite !le_combine_split. split; by apply Z.mod_small.
Qed.

(** ** The index [Write] writes *)

Lemma index_entries_zip p ids c :
  index_entries p ids c =
  zip_with Build_resourceInfo (u16 <$> ids) (offset <$> index_entries p ids c).
Proof.
  revert c. induction ids as [|i ids IH]; intros c; [done|].
  cbn [index_entries fmap list_fmap zip_with offset]. f_equal. apply IH.
Qed.

Lemma payload_valid p ids :
  Forall is_u16 ids → payload p ids = concat (resource p <$> ids).
Proof.
  intros Hu. unfold payload. f_equal. apply Forall_fmap_ext_1.
  eapply Forall_impl; [exact Hu|]. intros i Hi. cbv beta. by rewrite u16_small.
Qed.

Lemma payload_length p ids :
  length (payload p ids) = sum_list_with (λ i, length (resource p (u16 i))) ids.
Proof.
  unfold payload. induction ids as [|i ids IH]; [done|].
  cbn [fmap list_fmap concat sum_list_with]. rewrite length_app. f_equal. apply IH.
Qed.

Lemma end_offset_u32 p ids c :
  u32 (end_offset p ids (u32 c)) =
  u32 (c + Z.of_nat (sum_list_with (λ i, length (resource p (u16 i))) ids)).
Proof.
  revert c. induction ids as [|i ids IH]; intros c.
  - cbn [end_offset sum_list_with]. unfold u32.
    by rewrite Z.add_0_r, Z.mod_mod by lia.
  - cbn [end_offset sum_list_with]. rewrite IH, Nat2Z.inj_add. unfold u32.
    change (2 ^ 32) with 4294967296. Z.div_mod_to_equations. lia.
Qed.

Lemma end_offset_sum p ids c :
  is_u32 c →
  end_offset p ids c =
  u32 (c + Z.of_nat (sum_list_with (λ i, length (resource p (u16 i))) ids)).
Proof.
  intros Hc. rewrite <- end_offset_u32, (u32_small c) by done.
  symmetry. by apply u32_small, end_offset_range.
Qed.

Lemma sum_list_with_ext {A} (f g : A → nat) l :
  Forall (λ x, f x = g x) l → sum_list_with f l = sum_list_with g l.
Proof. induction 1 as [|x l Hx _ IH]; [done|]. simpl. by rewrite Hx, IH. Qed.

Lemma sum_list_with_fst {A B} (f : A → nat) (l : list (A * B)) :
  sum_list_with f l.*1 = sum_list_with (λ x, f x.1) l.
Proof. induction l as [|x l IH]; [done|]. simpl. f_equal. apply IH. Qed.

Lemma payload_total p range_order :
  valid_PakFile p → range_of (Resourses p) range_order →
  sum_list_with (λ i, length (resource p (u16 i))) (sort_Ints range_order)
  = total_payload p.
Proof.
  intros (_ & _ & Hk) Hr. unfold range_of in Hr.
  rewrite sort_Ints_Permutation, Hr. unfold total_payload.
  rewrite (sum_list_with_fst (λ i, length (resource p (u16 i)))).
  apply sum_list_with_ext, Forall_forall. intros [k d] Hin.
  apply elem_of_map_to_list in Hin. cbn [fst snd].
  rewrite u16_small by (by apply Hk in Hin). unfold resource. by rewrite Hin.
Qed.

Lemma index_head p ids c :
  ∃ ri, (index_entries p ids c ++ [ {| id := 0; offset := end_offset p ids c |} ]) !! 0%nat
        = Some ri ∧ offset ri = c.
Proof. destruct ids; eexists; split; reflexivity. Qed.

Lemma index_last p ids c :
  (index_entries p ids c ++ [ {| id := 0; offset := end_offset p ids c |} ])
    !! length ids = Some {| id := 0; offset := end_offset p ids c |}.
Proof.
  rewrite <- (index_entries_length p ids c). by rewrite list_lookup_middle.
Qed.

Lemma index_next p ids c i ri ri' :
  (index_entries p ids c ++ [ {| id := 0; offset := end_offset p ids c |} ]) !! i
    = Some ri →
  (index_entries p ids c ++ [ {| id := 0; offset := end_offset p ids c |} ]) !! S i
    = Some ri' →
  offset ri' = u32 (offset ri + Z.of_nat (length (resource p (id ri)))).
Proof.
  revert c i. induction ids as [|k ids IH]; intros c i Hi Hi'.
  - by destruct i.
  - cbn [index_entries end_offset app] in Hi, Hi'. destruct i as [|i].
    + simplify_eq/=.
      destruct (index_head p ids
        (u32 (c + u32 (Z.of_nat (length (resource p (u16 k))))))) as (r & Hr & Ho).
      rewrite Hr in Hi'. simplify_eq. rewrite Ho. unfold u32.
      by rewrite Zplus_mod_idemp_r.
    + by eapply IH.
Qed.

Lemma index_valid p ids c :
  is_u32 c →
  Forall valid_resourceInfo
    (index_entries p ids c ++ [ {| id := 0; offset := end_offset p ids c |} ]).
Proof.
  intros Hc. apply Forall_app. split; [by apply index_entries_valid|].
  repeat constructor; cbn [id offset]; unfold is_u16; try lia.
  all: by apply end_offset_range.
Qed.

(** ** Ascending order *)

(** C7: [Write] writes the index entries, and then the payloads, in
    ascending numeric order of the identifiers: the file is the header, one
    index entry per identifier in strictly increasing order, the terminal
    entry, and the payloads in that same order. At the table with the
    resources 300 and 7 (the witness) the entry of 7 comes first. *)
Theorem Write_ascending p range_order :
  valid_PakFile p → range_of (Resourses p) range_order →
  ∃ ids offsets final,
    Sorted Z.lt ids ∧ ids ≡ₚ range_order ∧ length offsets = length ids ∧
    Write range_order (Some p) =
    Ok (put_header (Version p) (Z.of_nat (length ids)) (Encoding p)
        ++ flat_map put_resourceInfo (zip_with Build_resourceInfo ids offsets)
        ++ put_resourceInfo {| id := 0; offset := final |}
        ++ concat (resource p <$> ids)).
Proof.
  intros Hp Hr. pose proof (valid_sorted_is_u16 p range_order Hp Hr) as Hu.
  destruct (start_offset_valid p Hp) as [Hn _].
  exists (sort_Ints range_order),
         (offset <$> index_entries p (sort_Ints range_order) (start_offset p)),
         (end_offset p (sort_Ints range_order) (start_offset p)).
  split; [by eapply sort_Ints_ascending|].
  split; [apply sort_Ints_Permutation|].
  split; [by rewrite length_fmap, index_entries_length|].
  rewrite Write_layout. unfold layout. rewrite Hn.
  rewrite sort_Ints_length, (range_of_length _ _ Hr).
  rewrite flat_map_app, <- app_assoc.
  change (flat_map put_resourceInfo [?x]) with (put_resourceInfo x ++ []).
  rewrite app_nil_r, payload_valid by done.
  rewrite (index_entries_zip p (sort_Ints range_order)) at 1.
  by rewrite fmap_u16_small.
Qed.

Lemma Write_ascending_witness :
  ∃ ids offsets final,
    Sorted Z.lt ids ∧ ids ≡ₚ [300; 7] ∧ length offsets = length ids ∧
    Write [300; 7] (Some pak_ab) =
    Ok (put_header (Version pak_ab) (Z.of_nat (length ids)) (Encoding pak_ab)
        ++ flat_map put_resourceInfo (zip_with Build_resourceInfo ids offsets)
        ++ put_resourceInfo {| id := 0; offset := final |}
        ++ concat (resource pak_ab <$> ids)).
Proof.
  apply (Write_ascending pak_ab [300; 7]).
  - by_decide.
  - by_decide.
Defined.

(** The table of the resources 300 ("b") and 7 ("a"), whichever way [range]
    runs through it: the index entry (7, 27) precedes (300, 28). *)
Example Write_pak_ab :
  Write [300; 7] (Some pak_ab) = Write [7; 300] (Some pak_ab) ∧
  Write [300; 7] (Some pak_ab) =
  Ok (put_header 4 2 1
      ++ put_resourceInfo {| id := 7; offset := 27 |}
      ++ put_resourceInfo {| id := 300; offset := 28 |}
      ++ put_resourceInfo {| id := 0; offset := 29 |}
      ++ [Byte.x61; Byte.x62]).
Proof. split; vm_compute; reflexivity. Qed.

(** ** Offsets *)

(** C8, as stated, fails once the offsets pass 2^32: with one resource of
    4 GiB the terminal entry holds 21, not 21 + 2^32. *)
Lemma Write_offsets_counterexample :
  valid_PakFile pak_4GiB ∧ range_of (Resourses pak_4GiB) [1] ∧
  Z.of_nat (total_payload pak_4GiB) = 2 ^ 32 ∧
  ∃ out, Write [1] (Some pak_4GiB) = Ok out ∧
    written_offset out 0 = 21 ∧
    written_id out 1 = 0 ∧
    written_offset out 1 ≠ written_offset out 0 + Z.of_nat (total_payload pak_4GiB).
Proof.
  assert (Hp : valid_PakFile pak_4GiB).
  { split; [unfold is_u32, pak_4GiB; cbn [Version]; lia|].
    split; [unfold is_u8, pak_4GiB; cbn [Encoding]; unfold EncodingBinary; lia|].
    intros k d Hk. unfold pak_4GiB in Hk. cbn [Resourses] in Hk.
    apply lookup_singleton_Some in Hk as [<- _]. unfold is_u16. lia. }
  assert (Ht : Z.of_nat (total_payload pak_4GiB) = 2 ^ 32).
  { unfold total_payload, pak_4GiB. cbn [Resourses].
    rewrite map_to_list_singleton. cbn [sum_list_with snd].
    rewrite Nat.add_0_r. apply data_4GiB_length. }
  split; [done|]. split; [apply range_of_singleton|]. split; [done|].
  exists (layout pak_4GiB [1]). split; [apply (Write_layout [1])|].
  assert (Hres : resource pak_4GiB (u16 1) = data_4GiB).
  { unfold resource, pak_4GiB. cbn [Resourses]. change (u16 1) with 1.
    by rewrite lookup_singleton_eq. }
  assert (Hstart : start_offset pak_4GiB = 21).
  { unfold start_offset, pak_4GiB. cbn [Resourses]. by rewrite map_size_singleton. }
  assert (Hend : end_offset pak_4GiB [1] 21 = 21).
  { cbn [end_offset]. by rewrite Hres, data_4GiB_length. }
  unfold layout. rewrite Hstart.
  destruct (written_entry (Version pak_4GiB)
              (u32 (Z.of_nat (size (Resourses pak_4GiB)))) (Encoding pak_4GiB)
              (index_entries pak_4GiB [1] 21
               ++ [ {| id := 0; offset := end_offset pak_4GiB [1] 21 |} ])
              (payload pak_4GiB [1]) 0 {| id := 1; offset := 21 |})
    as [_ H0]; [done|split; cbn [id offset]; unfold is_u16, is_u32; lia|].
  destruct (written_entry (Version pak_4GiB)
              (u32 (Z.of_nat (size (Resourses pak_4GiB)))) (Encoding pak_4GiB)
              (index_entries pak_4GiB [1] 21
               ++ [ {| id := 0; offset := end_offset pak_4GiB [1] 21 |} ])
              (payload pak_4GiB [1]) 1 {| id := 0; offset := 21 |})
    as [H1 H1'].
  { cbn [index_entries app]. rewrite Hend. reflexivity. }
  { split; cbn [id offset]; unfold is_u16, is_u32; lia. }
  cbv zeta in H0, H1, H1'. rewrite H0, H1, H1', Ht. cbn [id offset].
  split; [reflexivity|]. split; [reflexivity|]. lia.
Qed.

(** C8 (amended): the offsets are accumulated as uint32 values. In the
    file of a table with [N] resources the first index entry holds the
    offset 9 + 6 * (N + 1); every following entry, the terminal one
    included, holds the offset of the entry before it plus the length of
    that entry's resource, modulo 2^32; and the terminal entry is
    (0, final) with final the first offset plus the number of payload
    bytes, modulo 2^32. *)
Theorem Write_offsets p range_order out :
  valid_PakFile p → range_of (Resourses p) range_order →
  Write range_order (Some p) = Ok out →
  let N := size (Resourses p) in
  written_offset out 0 = 9 + 6 * (Z.of_nat N + 1) ∧
  (∀ i, (i < N)%nat →
     written_offset out (S i) =
     u32 (written_offset out i
          + Z.of_nat (length (resource p (written_id out i))))) ∧
  written_id out N = 0 ∧
  written_offset out N =
  u32 (9 + 6 * (Z.of_nat N + 1) + Z.of_nat (total_payload p)).
Proof.
  intros Hp Hr Hw N. rewrite Write_layout in Hw. injection Hw as <-.
  destruct (start_offset_valid p Hp) as [_ Hstart].
  assert (Hc : is_u32 (start_offset p)) by apply u32_range.
  set (ids := sort_Ints range_order).
  assert (HN : length ids = N).
  { unfold ids. rewrite sort_Ints_length. by apply range_of_length. }
  pose proof (index_valid p ids (start_offset p) Hc) as Hval.
  set (es := index_entries p ids (start_offset p)
             ++ [ {| id := 0; offset := end_offset p ids (start_offset p) |} ]) in *.
  assert (Hes : length es = S N).
  { unfold es. rewrite length_app, index_entries_length, HN. simpl. lia. }
  assert (Hat : ∀ i ri, es !! i = Some ri →
            written_id (layout p ids) i = id ri ∧
            written_offset (layout p ids) i = offset ri).
  { intros i ri Hi. apply written_entry; [done|].
    rewrite Forall_forall in Hval. apply Hval. by eapply list_elem_of_lookup_2. }
  split; [|split; [|split]].
  - destruct (index_head p ids (start_offset p)) as (ri & Hri & Ho).
    destruct (Hat _ _ Hri) as [_ ->]. by rewrite Ho.
  - intros i Hi.
    destruct (lookup_lt_is_Some_2 es i) as [ri Hri]; [lia|].
    destruct (lookup_lt_is_Some_2 es (S i)) as [ri' Hri']; [lia|].
    destruct (Hat _ _ Hri) as [-> ->]. destruct (Hat _ _ Hri') as [_ ->].
    by eapply index_next.
  - rewrite <- HN. by destruct (Hat _ _ (index_last p ids (start_offset p))) as [-> _].
  - rewrite <- HN at 1.
    destruct (Hat _ _ (index_last p ids (start_offset p))) as [_ ->].
    cbn [offset]. rewrite end_offset_sum by done.
    unfold ids. by rewrite payload_total, Hstart.
Qed.

Lemma Write_offsets_witness :
  ∃ out, Write [300; 7] (Some pak_ab) = Ok out ∧
  written_offset out 0 = 9 + 6 * (Z.of_nat (size (Resourses pak_ab)) + 1) ∧
  (∀ i, (i < size (Resourses pak_ab))%nat →
     written_offset out (S i) =
     u32 (written_offset out i
          + Z.of_nat (length (resource pak_ab (written_id out i))))) ∧
  written_id out (size (Resourses pak_ab)) = 0 ∧
  written_offset out (size (Resourses pak_ab)) =
  u32 (9 + 6 * (Z.of_nat (size (Resourses pak_ab)) + 1)
       + Z.of_nat (total_payload pak_ab)).
Proof.
  eexists. split; [vm_compute; reflexivity|].
  apply (Write_offsets pak_ab [300; 7]).
  - by_decide.
  - by_decide.
  - vm_compute. reflexivity.
Defined.

(** ** The terminal entry *)

(** X16: below the largest count the terminal entry is enforced. A stream
    whose header announces fewer than 2^32 - 1 resources, whose index of
    [numberOfResources + 1] entries can be read, and whose last index entry
    has a non-zero id, is refused with the error "last id != 0"; no table
    is returned, whatever follows the index. *)
Theorem Read_sentinel_enforced version numberOfResources encoding es last rest :
  is_u32 version → 0 ≤ numberOfResources → numberOfResources + 1 < 2 ^ 32 →
  is_u8 encoding →
  Forall valid_resourceInfo (es ++ [last]) →
  Z.of_nat (length es) = numberOfResources →
  id last ≠ 0 →
  Read (put_header version numberOfResources encoding
        ++ flat_map put_resourceInfo (es ++ [last]) ++ rest) = Err ErrLastId.
Proof.
  intros Hv Hn0 Hn He Hes Hlen Hlast. rewrite Read_raw; try done.
  - by rewrite decide_True.
  - unfold is_u32. lia.
  - rewrite length_app. simpl. rewrite u32_small by (unfold is_u32; lia). lia.
Qed.

Lemma Read_sentinel_enforced_witness :
  Read (put_header 4 1 1
        ++ flat_map put_resourceInfo
             ([ {| id := 5; offset := 21 |} ] ++ [ {| id := 9; offset := 22 |} ])
        ++ [Byte.x61]) = Err ErrLastId.
Proof.
  apply Read_sentinel_enforced.
  - in_range.
  - lia.
  - lia.
  - in_range.
  - valid_infos.
  - reflexivity.
  - cbn [id]. lia.
Defined.

(** ** Truncated streams *)

(** C4, as stated, fails when the stream ends exactly where the payload of a
    resource of non-zero declared length should start: [Read] passes on the
    reader's [io.EOF], which names no resource. *)
Lemma Read_truncated_counterexample :
  let r := put_header 4 1 1
           ++ flat_map put_resourceInfo
                [ {| id := 5; offset := 21 |}; {| id := 0; offset := 22 |} ] in
  u32 (22 - 21) = 1 ∧ length r = 21%nat ∧
  Read r = Err io_EOF ∧ Read r ≠ Err (ErrReadResource 5).
Proof. vm_compute. repeat split; discriminate. Qed.

Lemma declared_length es ds : declared es ds → length es = S (length ds).
Proof.
  revert ds. induction es as [|ri es IH]; intros ds Hd; [by destruct ds|].
  destruct es as [|ri' es], ds as [|d ds]; try done.
  destruct Hd as [_ Hd]. apply IH in Hd. simpl in *. lia.
Qed.

(** C4 (amended): when the payloads of the resources before [ri] are all
    there and fewer bytes are left than [ri] declares, [Read] fails and
    returns no table. The error names the id of [ri] when at least one byte
    is left for it; when none is left the error is the reader's [io.EOF]. *)
Theorem Read_truncated version numberOfResources encoding es1 ri ri' es2 ds tail :
  is_u32 version → is_u32 numberOfResources → is_u8 encoding →
  Forall valid_resourceInfo (es1 ++ ri :: ri' :: es2) →
  Z.of_nat (length (es1 ++ ri :: ri' :: es2)) = u32 (numberOfResources + 1) →
  id <$> last (ri' :: es2) = Some 0 →
  declared (es1 ++ [ri]) ds →
  Z.of_nat (length tail) < u32 (offset ri' - offset ri) →
  Read (put_header version numberOfResources encoding
        ++ flat_map put_resourceInfo (es1 ++ ri :: ri' :: es2)
        ++ concat ds ++ tail) =
  Err (match tail with
       | [] => io_EOF
       | _ => ErrReadResource (id ri)
       end).
Proof.
  intros Hv Hn He Hes Hlen Hlast Hd Hlt.
  destruct (exists_last (l := ri' :: es2)) as (es2' & lst & Heq); [done|].
  rewrite Heq, last_snoc in Hlast. injection Hlast as Hlast.
  assert (Hsplit : es1 ++ ri :: ri' :: es2 = (es1 ++ ri :: es2') ++ [lst]).
  { rewrite Heq. by rewrite <- app_assoc. }
  rewrite Hsplit in Hes, Hlen |- *. rewrite Read_raw by done.
  rewrite decide_False by (intros Hne; by apply Hne).
  unfold Read_resources. rewrite <- Hsplit.
  by rewrite read_entries_truncated.
Qed.

Lemma Read_truncated_witness :
  Read (put_header 4 2 1
        ++ flat_map put_resourceInfo
             ([ {| id := 7; offset := 27 |} ]
              ++ {| id := 300; offset := 28 |}
                 :: {| id := 0; offset := 31 |} :: [])
        ++ concat [ [Byte.x61] ] ++ [Byte.x62]) =
  Err (ErrReadResource 300).
Proof.
  apply (Read_truncated 4 2 1 [ {| id := 7; offset := 27 |} ]
           {| id := 300; offset := 28 |} {| id := 0; offset := 31 |} []
           [ [Byte.x61] ] [Byte.x62]).
  - in_range.
  - in_range.
  - in_range.
  - valid_infos.
  - vm_compute. reflexivity.
  - reflexivity.
  - vm_compute. split; [reflexivity|exact I].
  - vm_compute. reflexivity.
Defined.

(** ** A resource count of 2^32 - 1 *)

(** C9 fails on the nine bytes of a header that announces 2^32 - 1
    resources: [numberOfResources+1] wraps to zero, no index entry is read,
    and [resInfos[numberOfResources]] is out of range. [Read] neither
    returns a table nor an error: it panics. *)
Example Read_panics :
  u32 (4294967295 + 1) = 0 ∧
  length (put_header 4 4294967295 1) = 9%nat ∧
  Read (put_header 4 4294967295 1) = Panic.
Proof. vm_compute. repeat split. Qed.

(** ** Duplicate ids *)

Lemma zip_fst_elem {A B} (l : list A) (k : list B) x : x ∈ (zip l k).*1 → x ∈ l.
Proof.
  intros Hx. apply list_elem_of_fmap in Hx as [[a b] [-> Hin]].
  by apply elem_of_zip_l in Hin.
Qed.

(** C10: two index entries with the same id are not refused; on a stream
    that is well formed otherwise [Read] succeeds, and the table binds the
    id to the payload of the later entry ([r2], after which the id does not
    occur again). *)
Theorem Read_duplicate_id version numberOfResources encoding
    es1 r1 es2 r2 es3 lst ds d2 rest :
  is_u32 version → is_u32 numberOfResources → is_u8 encoding →
  Forall valid_resourceInfo ((es1 ++ r1 :: es2 ++ r2 :: es3) ++ [lst]) →
  Z.of_nat (length ((es1 ++ r1 :: es2 ++ r2 :: es3) ++ [lst]))
    = u32 (numberOfResources + 1) →
  id lst = 0 →
  declared ((es1 ++ r1 :: es2 ++ r2 :: es3) ++ [lst]) ds →
  id r1 = id r2 → id r2 ≠ 0 → id r2 ∉ id <$> es3 →
  ds !! length (es1 ++ r1 :: es2) = Some d2 →
  ∃ p, Read (put_header version numberOfResources encoding
             ++ flat_map put_resourceInfo ((es1 ++ r1 :: es2 ++ r2 :: es3) ++ [lst])
             ++ concat ds ++ rest) = Ok p
       ∧ Resourses p !! id r2 = Some d2.
Proof.
  intros Hv Hn He Hes Hlen Hlst Hd _ Hne Hnot Hd2.
  rewrite Read_raw by done.
  rewrite decide_False by (intros Hne'; by apply Hne').
  unfold Read_resources. rewrite read_entries_ok by done.
  eexists. split; [reflexivity|]. cbn [Resourses].
  rewrite <- (take_drop_middle _ _ _ Hd2).
  assert (Hl : length (take (length (es1 ++ r1 :: es2)) ds) = length (es1 ++ r1 :: es2)).
  { apply lookup_lt_Some in Hd2. rewrite length_take. lia. }
  replace ((es1 ++ r1 :: es2 ++ r2 :: es3) ++ [lst])
    with ((es1 ++ r1 :: es2) ++ r2 :: (es3 ++ [lst]))
    by (rewrite <- !app_assoc; cbn [app]; by rewrite <- !app_assoc).
  rewrite fmap_app, fmap_cons.
  rewrite zip_with_app by (by rewrite length_fmap, Hl).
  cbn [zip_with]. apply insert_all_last.
  intros Hin. apply zip_fst_elem in Hin.
  rewrite fmap_app in Hin. apply elem_of_app in Hin as [Hin|Hin]; [done|].
  apply list_elem_of_singleton in Hin. congruence.
Qed.

Lemma Read_duplicate_id_witness :
  ∃ p, Read (put_header 4 2 1
             ++ flat_map put_resourceInfo
                  (([] ++ {| id := 7; offset := 27 |}
                       :: [] ++ {| id := 7; offset := 28 |} :: [])
                   ++ [ {| id := 0; offset := 29 |} ])
             ++ concat [ [Byte.x61]; [Byte.x62] ] ++ []) = Ok p
       ∧ Resourses p !! id {| id := 7; offset := 28 |} = Some [Byte.x62].
Proof.
  apply (Read_duplicate_id 4 2 1 [] {| id := 7; offset := 27 |} []
           {| id := 7; offset := 28 |} [] {| id := 0; offset := 29 |}
           [ [Byte.x61]; [Byte.x62] ] [Byte.x62] []).
  - in_range.
  - in_range.
  - in_range.
  - valid_infos.
  - vm_compute. reflexivity.
  - reflexivity.
  - vm_compute. repeat split.
  - reflexivity.
  - cbn [id]. lia.
  - cbn [fmap list_fmap]. apply not_elem_of_nil.
  - reflexivity.
Defined.

(** ** What a successful [Read] has seen *)

Lemma bind_Ok_inv {S A B} (c : M S A) (k : A → M S B) s b s'' :
  (c ≫= k) s = Ok (b, s'') → ∃ a s', c s = Ok (a, s') ∧ k a s' = Ok (b, s'').
Proof.
  unfold mbind, M_bind. destruct (c s) as [[a s']| |]; [|done|done].
  intros Hk. by exists a, s'.
Qed.

Lemma io_ReadFull_Ok_inv n r bs r' :
  io_ReadFull n r = Ok (bs, r') → r = bs ++ r' ∧ length bs = n.
Proof.
  unfold io_ReadFull. case_decide as Hn; [|by destruct r].
  intros [= <- <-]. split; [by rewrite take_drop|]. rewrite length_take. lia.
Qed.

Lemma io_ReadFull_no_panic n r : io_ReadFull n r ≠ Panic.
Proof. unfold io_ReadFull. case_decide; [done|]. by destruct r. Qed.

Lemma le_combine_range n (bs : list byte) :
  length bs = n → 0 ≤ le_combine bs < 2 ^ (8 * Z.of_nat n).
Proof. intros <-. apply le_combine_bound. Qed.

Lemma binary_Read_Ok_inv n r v r' :
  binary_Read n r = Ok (v, r') →
  r = le_split n v ++ r' ∧ 0 ≤ v < 2 ^ (8 * Z.of_nat n).
Proof.
  unfold binary_Read. intros H. apply bind_Ok_inv in H as (bs & r1 & Hbs & Hret).
  injection Hret as <- <-. apply io_ReadFull_Ok_inv in Hbs as [-> Hlen].
  split; [|by apply le_combine_range].
  by rewrite <- Hlen, split_le_combine.
Qed.

Lemma binary_Read_no_panic n r : binary_Read n r ≠ Panic.
Proof.
  unfold binary_Read, mbind, M_bind.
  pose proof (io_ReadFull_no_panic n r).
  by destruct (io_ReadFull n r) as [[bs r']| |].
Qed.

Lemma read_resInfos_Ok_inv n r es r' :
  read_resInfos n r = Ok (es, r') →
  r = flat_map put_resourceInfo es ++ r' ∧ length es = n
  ∧ Forall valid_resourceInfo es.
Proof.
  revert r es. induction n as [|n IH]; intros r es H.
  - injection H as <- <-. by repeat split.
  - cbn [read_resInfos] in H.
    apply bind_Ok_inv in H as (i & r1 & Hi & H).
    apply bind_Ok_inv in H as (o & r2 & Ho & H).
    apply bind_Ok_inv in H as (rest & r3 & Hrest & H).
    injection H as <- <-.
    apply binary_Read_Ok_inv in Hi as [-> Hi], Ho as [-> Ho].
    apply IH in Hrest as (-> & <- & Hval).
    split; [|split; [done|]].
    + cbn [flat_map]. unfold put_resourceInfo at 1. cbn [id offset].
      by rewrite <- !app_assoc.
    + constructor; [|done]. split; cbn [id offset]; [exact Hi|exact Ho].
Qed.

Lemma read_resInfos_no_panic n r : read_resInfos n r ≠ Panic.
Proof.
  revert r. induction n as [|n IH]; intros r; [done|].
  cbn [read_resInfos]. unfold mbind, M_bind.
  pose proof (binary_Read_no_panic 2 r).
  destruct (binary_Read 2 r) as [[i r1]| |]; [|done|done].
  pose proof (binary_Read_no_panic 4 r1).
  destruct (binary_Read 4 r1) as [[o r2]| |]; [|done|done].
  specialize (IH r2). by destruct (read_resInfos n r2) as [[rest r3]| |].
Qed.

Lemma Reader_Read_inv n r data err r' :
  0 ≤ n →
  Reader_Read n r = Ok ((data, err), r') →
  r = data ++ r' ∧ Z.of_nat (length data) ≤ n
  ∧ (err = None ∨ (err = Some io_EOF ∧ data = [] ∧ r = [] ∧ 0 < n)).
Proof.
  intros Hn. unfold Reader_Read. case_decide as H0.
  - intros [= <- <- <-]. repeat split; [simpl; lia|by left].
  - destruct r as [|b r].
    + intros [= <- <- <-]. repeat split; [simpl; lia|]. right. repeat split. lia.
    + intros [= <- <- <-]. split; [by rewrite take_drop|].
      split; [rewrite length_take; lia|by left].
Qed.

Lemma read_entries_Ok_inv es res r res' r' :
  es ≠ [] →
  read_entries es res r = Ok (res', r') →
  ∃ ds, declared es ds ∧ r = concat ds ++ r'
        ∧ res' = insert_all res (zip (id <$> es) ds).
Proof.
  revert res r. induction es as [|ri es IH]; intros res r Hne H; [done|].
  destruct es as [|ri' es].
  - injection H as <- <-. by exists [].
  - cbn [read_entries] in H.
    apply bind_Ok_inv in H as ([data err] & r1 & Hrd & H).
    pose proof (u32_range (offset ri' - offset ri)) as Hr. unfold is_u32 in Hr.
    apply Reader_Read_inv in Hrd as (-> & Hle & Herr); [|lia].
    destruct err as [err|]; [done|]. case_decide as Hlen; [done|].
    apply IH in H as (ds & Hd & -> & ->); [|done].
    exists (data :: ds). split; [|split].
    + split; [|done]. rewrite <- Hlen.
      symmetry. apply u32_small. unfold is_u32. lia.
    + cbn [concat]. by rewrite <- app_assoc.
    + reflexivity.
Qed.

Lemma read_entries_no_panic es res r : read_entries es res r ≠ Panic.
Proof.
  revert res r. induction es as [|ri es IH]; intros res r; [done|].
  destruct es as [|ri' es]; [done|].
  cbn [read_entries]. unfold mbind, M_bind, Reader_Read.
  case_decide.
  - case_decide; [done|]. apply IH.
  - destruct r as [|b r]; [done|]. case_decide; [done|]. apply IH.
Qed.

Lemma bind_Panic_inv {S A B} (c : M S A) (k : A → M S B) s :
  (c ≫= k) s = Panic → c s = Panic ∨ ∃ a s', c s = Ok (a, s') ∧ k a s' = Panic.
Proof.
  unfold mbind, M_bind. destruct (c s) as [[a s']| |]; [|done|by left].
  intros Hk. right. by exists a, s'.
Qed.

Lemma index_Ok_inv {S} (resInfos : list resourceInfo) i (s s' : S) ri :
  index resInfos i s = Ok (ri, s') →
  s' = s ∧ i < Z.of_nat (length resInfos) ∧ resInfos !! Z.to_nat i = Some ri.
Proof.
  unfold index. case_decide as Hi; [|done].
  destruct (resInfos !! Z.to_nat i) as [ri'|] eqn:Hl; [|done].
  by intros [= <- <-].
Qed.

Lemma index_Panic_inv {S} (resInfos : list resourceInfo) i (s : S) :
  0 ≤ i → index resInfos i s = Panic → Z.of_nat (length resInfos) ≤ i.
Proof.
  intros H0. unfold index. case_decide as Hi; [|lia].
  destruct (resInfos !! Z.to_nat i) as [ri'|] eqn:Hl; [done|].
  apply lookup_ge_None in Hl. lia.
Qed.

(** The index of a readable header: either [numberOfResources + 1] entries
    of which the decoder takes the last, or none at all when the count is
    2^32 - 1. *)
Lemma index_count n (resInfos : list resourceInfo) :
  is_u32 n → length resInfos = Z.to_nat (u32 (n + 1)) →
  (n + 1 < 2 ^ 32 ∧ length resInfos = S (Z.to_nat n))
  ∨ (n = 2 ^ 32 - 1 ∧ resInfos = []).
Proof.
  intros Hn Hlen. unfold is_u32 in Hn.
  destruct (decide (n + 1 < 2 ^ 32)) as [Hlt|Hge].
  - left. rewrite u32_small in Hlen by (unfold is_u32; lia). lia.
  - right. assert (n = 2 ^ 32 - 1) as -> by lia. split; [done|].
    change (u32 (2 ^ 32 - 1 + 1)) with 0 in Hlen. by destruct resInfos.
Qed.

Lemma Read_Ok_inv r p :
  Read r = Ok p →
  ∃ n es lst ds rest,
    r = put_header (Version p) n (Encoding p)
        ++ flat_map put_resourceInfo (es ++ [lst]) ++ concat ds ++ rest
    ∧ is_u32 (Version p) ∧ n + 1 < 2 ^ 32 ∧ is_u8 (Encoding p)
    ∧ Forall valid_resourceInfo (es ++ [lst])
    ∧ Z.of_nat (length es) = n ∧ id lst = 0
    ∧ declared (es ++ [lst]) ds
    ∧ Resourses p = insert_all ∅ (zip (id <$> es) ds).
Proof.
  unfold Read. destruct (Read_M r) as [[p' r']| |] eqn:H; [|done|done].
  intros [= ->]. unfold Read_M in H.
  apply bind_Ok_inv in H as (v & r1 & Hv & H).
  apply bind_Ok_inv in H as (n & r2 & Hn & H).
  apply bind_Ok_inv in H as (e & r3 & He & H).
  apply bind_Ok_inv in H as (resInfos & r4 & Hinfos & H).
  apply bind_Ok_inv in H as (lst & r5 & Hlst & H).
  case_decide as Hid; [done|].
  apply bind_Ok_inv in H as (res & r6 & Hres & H).
  injection H as <- <-. cbn [Version Encoding Resourses].
  apply binary_Read_Ok_inv in Hv as [-> Hv], Hn as [-> Hn], He as [-> He].
  apply read_resInfos_Ok_inv in Hinfos as (-> & Hlen & Hval).
  apply index_Ok_inv in Hlst as (-> & Hlt & Hlst).
  destruct (index_count n resInfos Hn Hlen) as [[Hn1 Hlen']|[-> ->]];
    [|simpl in Hlt; lia].
  destruct (exists_last (l := resInfos)) as (es & lst' & ->);
    [by destruct resInfos|].
  rewrite length_app in Hlen'. cbn [length] in Hlen'.
  assert (Hes : length es = Z.to_nat n) by lia.
  rewrite <- Hes in Hlst. rewrite list_lookup_middle in Hlst by done.
  injection Hlst as ->.
  pose proof (read_resources_entries (length es) [] (es ++ [lst]) ∅ r4) as Heq.
  cbn [app length] in Heq. change (Z.of_nat 0) with 0 in Heq.
  rewrite <- Hes, Heq in Hres by (rewrite length_app; simpl; lia).
  apply read_entries_Ok_inv in Hres as (ds & Hd & -> & ->); [|by destruct es].
  exists n, es, lst, ds, r6. unfold put_header. rewrite <- !app_assoc.
  repeat split; try done; try lia.
  rewrite fmap_app. f_equal. apply zip_app_same_length.
    apply declared_length in Hd. rewrite length_app in Hd. simpl in Hd.
    rewrite length_fmap. lia.
Qed.

Lemma Read_wellformed version n encoding es lst ds rest :
  is_u32 version → n + 1 < 2 ^ 32 → is_u8 encoding →
  Forall valid_resourceInfo (es ++ [lst]) →
  Z.of_nat (length es) = n → id lst = 0 →
  declared (es ++ [lst]) ds →
  Read (put_header version n encoding
        ++ flat_map put_resourceInfo (es ++ [lst]) ++ concat ds ++ rest) =
  Ok {| Version := version; Encoding := encoding;
        Resourses := insert_all ∅ (zip (id <$> es) ds) |}.
Proof.
  intros Hv Hn He Hval Hlen Hlst Hd.
  assert (Hds : length es = length ds).
  { apply declared_length in Hd. rewrite length_app in Hd. simpl in Hd. lia. }
  assert (Hn' : is_u32 n) by (unfold is_u32; lia).
  rewrite Read_raw; try done.
  - rewrite decide_False by (intros Hne; by apply Hne).
    unfold Read_resources. rewrite read_entries_ok by done.
    rewrite fmap_app. by rewrite zip_app_same_length by (by rewrite length_fmap).
  - rewrite length_app. simpl.
    rewrite u32_small by (unfold is_u32; lia). lia.
Qed.

Lemma declared_lengths es ds :
  declared es ds → Forall (λ d, is_u32 (Z.of_nat (length d))) ds.
Proof.
  revert ds. induction es as [|ri es IH]; intros ds Hd; [by destruct ds|].
  destruct es as [|ri' es], ds as [|d ds]; try done.
  destruct Hd as [Hlen Hd]. constructor; [|by apply IH].
  rewrite Hlen. apply u32_range.
Qed.

Lemma insert_all_lookup_Some res kds k d :
  insert_all res kds !! k = Some d → res !! k = Some d ∨ (k, d) ∈ kds.
Proof.
  revert res. induction kds as [|[k' d'] kds IH]; intros res H; [by left|].
  cbn [insert_all foldl fst snd] in H.
  fold (insert_all (<[k' := d']> res) kds) in H.
  apply IH in H as [H|H]; [|right; by right].
  apply lookup_insert_Some in H as [[-> ->]|[_ H]]; [right; by left|by left].
Qed.

Lemma insert_all_size res kds :
  (size (insert_all res kds) ≤ size res + length kds)%nat.
Proof.
  revert res. induction kds as [|[k d] kds IH]; intros res; [simpl; lia|].
  cbn [insert_all foldl fst snd length].
  fold (insert_all (<[k := d]> res) kds).
  etrans; [apply IH|]. rewrite map_size_insert.
  destruct (res !! k); simpl; lia.
Qed.

Lemma read_resources_valid es lst ds :
  Forall valid_resourceInfo (es ++ [lst]) → declared (es ++ [lst]) ds →
  ∀ k d, insert_all ∅ (zip (id <$> es) ds) !! k = Some d →
         is_u16 k ∧ Z.of_nat (length d) < 2 ^ 32.
Proof.
  intros Hval Hd k d Hk.
  apply insert_all_lookup_Some in Hk as [Hk|Hk].
  { rewrite lookup_empty in Hk. discriminate. }
  split.
  - apply elem_of_zip_l, list_elem_of_fmap in Hk as (ri & -> & Hri).
    apply Forall_app in Hval as [Hval _]. rewrite Forall_forall in Hval.
    by apply Hval.
  - apply elem_of_zip_r in Hk. apply declared_lengths in Hd.
    rewrite Forall_forall in Hd. apply Hd in Hk. unfold is_u32 in Hk. lia.
Qed.

(** X1: [Read] returns a table exactly for the streams made of a header, an
    index of [numberOfResources + 1] entries that ends with the id 0, the
    payloads of the declared lengths, and whatever follows them; the table
    has the version and the encoding of the header and the resources of the
    index, a later entry replacing an earlier one with the same id. *)
Theorem Read_Ok_iff r p :
  Read r = Ok p ↔
  ∃ n es lst ds rest,
    r = put_header (Version p) n (Encoding p)
        ++ flat_map put_resourceInfo (es ++ [lst]) ++ concat ds ++ rest
    ∧ is_u32 (Version p) ∧ n + 1 < 2 ^ 32 ∧ is_u8 (Encoding p)
    ∧ Forall valid_resourceInfo (es ++ [lst])
    ∧ Z.of_nat (length es) = n ∧ id lst = 0
    ∧ declared (es ++ [lst]) ds
    ∧ Resourses p = insert_all ∅ (zip (id <$> es) ds).
Proof.
  split; [apply Read_Ok_inv|].
  intros (n & es & lst & ds & rest & -> & Hv & Hn & He & Hval & Hlen & Hlst & Hd & Hres).
  rewrite Read_wellformed by done. rewrite <- Hres. by destruct p.
Qed.

(** X2: bytes after the last payload are not looked at. *)
Theorem Read_ignores_trailing r p extra :
  Read r = Ok p → Read (r ++ extra) = Ok p.
Proof.
  intros H. apply Read_Ok_inv in H
    as (n & es & lst & ds & rest & -> & Hv & Hn & He & Hval & Hlen & Hlst & Hd & Hres).
  rewrite <- !app_assoc. rewrite Read_wellformed by done.
  rewrite <- Hres. by destruct p.
Qed.

Lemma Read_ignores_trailing_witness :
  Read ((put_header 4 1 1
         ++ put_resourceInfo {| id := 5; offset := 21 |}
         ++ put_resourceInfo {| id := 0; offset := 22 |} ++ [Byte.x61])
        ++ [Byte.xff; Byte.xff]) =
  Ok {| Version := 4; Encoding := 1; Resourses := {[ 5 := [Byte.x61] ]} |}.
Proof.
  apply Read_ignores_trailing. vm_compute. reflexivity.
Defined.

(** X3: the table [Read] returns holds values of the Go types, every resource
    is shorter than 2^32 bytes, and there are at most as many resources as
    the header announces. *)
Theorem Read_result_valid r p :
  Read r = Ok p →
  valid_PakFile p
  ∧ map_Forall (λ _ d, Z.of_nat (length d) < 2 ^ 32) (Resourses p)
  ∧ Z.of_nat (size (Resourses p)) ≤ le_combine (take 4 (drop 4 r)).
Proof.
  intros H. apply Read_Ok_inv in H
    as (n & es & lst & ds & rest & -> & Hv & Hn & He & Hval & Hlen & Hlst & Hd & Hres).
  pose proof (read_resources_valid es lst ds Hval Hd) as Hkd.
  rewrite <- Hres in Hkd.
  split; [|split].
  - split; [done|]. split; [done|]. intros k d Hk. by apply Hkd in Hk as [Hk _].
  - intros k d Hk. by apply Hkd in Hk as [_ Hk].
  - unfold put_header. rewrite <- !app_assoc.
    rewrite (drop_app_length' _ _ 4) by (by rewrite length_le_split).
    rewrite take_app_length' by (by rewrite length_le_split).
    rewrite le_combine_split. change (2 ^ (Z.of_nat 4 * 8)) with (2 ^ 32).
    rewrite Z.mod_small by lia. rewrite Hres.
    pose proof (insert_all_size ∅ (zip (id <$> es) ds)) as Hsz.
    rewrite map_size_empty, length_zip, length_fmap in Hsz. lia.
Qed.

Lemma Read_result_valid_witness :
  let r := put_header 4 2 1
           ++ put_resourceInfo {| id := 7; offset := 27 |}
           ++ put_resourceInfo {| id := 7; offset := 28 |}
           ++ put_resourceInfo {| id := 0; offset := 29 |}
           ++ [Byte.x61; Byte.x62] in
  let p := {| Version := 4; Encoding := 1; Resourses := {[ 7 := [Byte.x62] ]} |} in
  valid_PakFile p
  ∧ map_Forall (λ _ d, Z.of_nat (length d) < 2 ^ 32) (Resourses p)
  ∧ Z.of_nat (size (Resourses p)) ≤ le_combine (take 4 (drop 4 r)).
Proof.
  intros r p. apply (Read_result_valid r p). vm_compute. reflexivity.
Defined.

(** X4: a table that was read can be written and read again: it comes back
    the same. *)
Theorem Read_Write_Read r p range_order :
  Read r = Ok p → range_of (Resourses p) range_order →
  ∃ out, Write range_order (Some p) = Ok out ∧ Read out = Ok p.
Proof.
  intros H Hr. exists (layout p (sort_Ints range_order)).
  split; [apply Write_layout|].
  apply Read_Ok_inv in H
    as (n & es & lst & ds & rest & -> & Hv & Hn & He & Hval & Hlen & Hlst & Hd & Hres).
  pose proof (read_resources_valid es lst ds Hval Hd) as Hkd.
  rewrite <- Hres in Hkd.
  apply Read_Write; [|done|].
  - split; [done|]. split; [done|]. intros k d Hk. by apply Hkd in Hk as [Hk _].
  - intros k d Hk. by apply Hkd in Hk as [_ Hk].
Qed.

Lemma Read_Write_Read_witness :
  let p := {| Version := 4; Encoding := 1; Resourses := {[ 7 := [Byte.x62] ]} |} in
  ∃ out, Write [7] (Some p) = Ok out ∧ Read out = Ok p.
Proof.
  intros p.
  apply (Read_Write_Read
           (put_header 4 2 1
            ++ put_resourceInfo {| id := 7; offset := 27 |}
            ++ put_resourceInfo {| id := 7; offset := 28 |}
            ++ put_resourceInfo {| id := 0; offset := 29 |}
            ++ [Byte.x61; Byte.x62]) p [7]).
  - vm_compute. reflexivity.
  - by_decide.
Defined.

(** ** Panics *)

Lemma Read_max_count version encoding rest :
  Read (put_header version (2 ^ 32 - 1) encoding ++ rest) = Panic.
Proof.
  unfold Read, Read_M, put_header. rewrite <- !app_assoc.
  erewrite bind_Ok by apply binary_Read_le_split.
  erewrite bind_Ok by apply binary_Read_le_split.
  erewrite bind_Ok by apply binary_Read_le_split.
  change ((2 ^ 32 - 1) mod 2 ^ (Z.of_nat 4 * 8)) with 4294967295.
  change (Z.to_nat (u32 (4294967295 + 1))) with 0%nat.
  erewrite bind_Ok by reflexivity.
  by erewrite bind_Panic by reflexivity.
Qed.

Lemma index_max_length : Z.of_nat (length index_max) = 2 ^ 32 - 1.
Proof. unfold index_max. rewrite length_replicate. apply Z2Nat.id. lia. Qed.

Lemma index_max_valid : Forall valid_resourceInfo index_max.
Proof. unfold index_max. apply Forall_replicate. split; in_range. Qed.

#[global] Opaque index_max.

(** C3 fails when the header announces 2^32 - 1 resources: the index of
    [numberOfResources + 1] = 2^32 entries is there and its last entry has
    the non-zero id 9, yet [Read] does not return the error "last id != 0".
    [numberOfResources+1] wraps to zero, no entry is read, and
    [resInfos[numberOfResources]] panics: the defect of C9. *)
Theorem Read_last_id_nonzero_panics :
  Z.of_nat (length (index_max ++ [ {| id := 9; offset := 0 |} ]))
    = (2 ^ 32 - 1) + 1
  ∧ Forall valid_resourceInfo (index_max ++ [ {| id := 9; offset := 0 |} ])
  ∧ id {| id := 9; offset := 0 |} ≠ 0
  ∧ Read (put_header 4 (2 ^ 32 - 1) 1
          ++ flat_map put_resourceInfo (index_max ++ [ {| id := 9; offset := 0 |} ]))
    = Panic.
Proof.
  split; [|split; [|split]].
  - rewrite length_app, Nat2Z.inj_add, index_max_length. reflexivity.
  - apply Forall_app. split; [apply index_max_valid|].
    apply List.Forall_cons; [split; in_range|apply List.Forall_nil].
  - cbn [id]. lia.
  - apply Read_max_count.
Qed.

(** X5: [Read] panics on exactly the streams whose first nine bytes announce
    2^32 - 1 resources; on every other stream it returns, with a table or
    with an error. *)
Theorem Read_Panic_iff r :
  Read r = Panic ↔
  ∃ version encoding rest, r = put_header version (2 ^ 32 - 1) encoding ++ rest.
Proof.
  split; [|intros (v & e & rest & ->); apply Read_max_count].
  unfold Read. destruct (Read_M r) as [[p' r']| |] eqn:H; [done|done|].
  intros _. unfold Read_M in H.
  apply bind_Panic_inv in H as [H|(v & r1 & Hv & H)];
    [by apply binary_Read_no_panic in H|].
  apply bind_Panic_inv in H as [H|(n & r2 & Hn & H)];
    [by apply binary_Read_no_panic in H|].
  apply bind_Panic_inv in H as [H|(e & r3 & He & H)];
    [by apply binary_Read_no_panic in H|].
  apply bind_Panic_inv in H as [H|(resInfos & r4 & Hinfos & H)];
    [by apply read_resInfos_no_panic in H|].
  apply binary_Read_Ok_inv in Hv as [-> Hv], Hn as [-> Hn], He as [-> He].
  apply read_resInfos_Ok_inv in Hinfos as (-> & Hlen & Hval).
  destruct (index_count n resInfos Hn Hlen) as [[Hn1 Hlen']|[-> ->]].
  - exfalso.
    apply bind_Panic_inv in H as [H|(lst & r5 & Hlst & H)].
    { apply index_Panic_inv in H; lia. }
    apply index_Ok_inv in Hlst as (-> & _ & _).
    case_decide; [done|].
    apply bind_Panic_inv in H as [H|(res & r6 & _ & H)]; [|done].
    pose proof (read_resources_entries (Z.to_nat n) [] resInfos ∅ r4) as Heq.
    cbn [app length] in Heq. change (Z.of_nat 0) with 0 in Heq.
    rewrite Heq in H by done. by apply read_entries_no_panic in H.
  - exists v, e, r4. unfold put_header. by rewrite <- !app_assoc.
Qed.

(** ** Streams that end early *)

(** X6: a stream of fewer than nine bytes is refused with the error of
    [binary.Read]: [io.EOF] when the stream ends where a header field
    starts, [io.ErrUnexpectedEOF] when it ends inside a field. *)
Theorem Read_short_header r :
  (length r < 9)%nat →
  Read r = Err (if bool_decide (length r `mod` 4 = 0)%nat
                then io_EOF else io_ErrUnexpectedEOF).
Proof.
  intros Hlen.
  do 9 (destruct r as [|? r]; [reflexivity|]).
  simpl in Hlen. lia.
Qed.

Lemma Read_short_header_witness :
  Read [Byte.x04; Byte.x00; Byte.x00; Byte.x00; Byte.x01] = Err io_ErrUnexpectedEOF.
Proof.
  apply (Read_short_header [Byte.x04; Byte.x00; Byte.x00; Byte.x00; Byte.x01]).
  simpl. lia.
Defined.

Lemma read_resInfos_short k r :
  (length r < 6 * k)%nat →
  read_resInfos k r =
  Err (if bool_decide (length r `mod` 6 = 0 ∨ length r `mod` 6 = 2)%nat
       then io_EOF else io_ErrUnexpectedEOF).
Proof.
  revert r. induction k as [|k IH]; intros r Hlen; [lia|].
  destruct (decide (length r < 6)%nat) as [Hshort|Hlong].
  - do 6 (destruct r as [|? r]; [reflexivity|]). simpl in Hshort. lia.
  - destruct r as [|b0 [|b1 [|b2 [|b3 [|b4 [|b5 r]]]]]]; try (simpl in Hlong; lia).
    cbn [read_resInfos].
    erewrite bind_Ok by reflexivity. erewrite bind_Ok by reflexivity.
    rewrite (bind_Err _ _ _ _ (IH r ltac:(simpl in Hlen; lia))).
    replace (length (b0 :: b1 :: b2 :: b3 :: b4 :: b5 :: r))
      with (length r + 1 * 6)%nat by (simpl; lia).
    by rewrite Nat.Div0.mod_add.
Qed.

(** X7: a stream that ends inside the index its header announces is refused
    with the error of [binary.Read]: [io.EOF] when it ends where an id or
    an offset starts, [io.ErrUnexpectedEOF] otherwise. No table is
    returned, however many payload-free entries were read. *)
Theorem Read_short_index version n encoding idx :
  is_u32 version → 0 ≤ n → n + 1 < 2 ^ 32 → is_u8 encoding →
  Z.of_nat (length idx) < 6 * (n + 1) →
  Read (put_header version n encoding ++ idx) =
  Err (if bool_decide (length idx `mod` 6 = 0 ∨ length idx `mod` 6 = 2)%nat
       then io_EOF else io_ErrUnexpectedEOF).
Proof.
  intros Hv Hn0 Hn He Hlen. unfold Read, Read_M, put_header.
  rewrite <- !app_assoc.
  erewrite bind_Ok by (by apply binary_Read_u32).
  erewrite bind_Ok by (apply binary_Read_u32; unfold is_u32; lia).
  erewrite bind_Ok by (by apply binary_Read_u8).
  erewrite bind_Err; [done|].
  apply read_resInfos_short.
  rewrite u32_small by (unfold is_u32; lia). lia.
Qed.

Lemma Read_short_index_witness :
  Read (put_header 4 1 1 ++ put_resourceInfo {| id := 5; offset := 21 |}
        ++ [Byte.x00; Byte.x00]) = Err io_EOF.
Proof.
  apply (Read_short_index 4 1 1
           (put_resourceInfo {| id := 5; offset := 21 |} ++ [Byte.x00; Byte.x00])).
  - in_range.
  - lia.
  - lia.
  - in_range.
  - vm_compute. reflexivity.
Defined.

(** ** Offsets are only compared with one another *)

Lemma u32_shift_diff o o' delta :
  u32 (u32 (o' + delta) - u32 (o + delta)) = u32 (o' - o).
Proof.
  unfold u32. change (2 ^ 32) with 4294967296. Z.div_mod_to_equations. lia.
Qed.

Lemma read_entries_shift delta es res r :
  read_entries (shift delta <$> es) res r = read_entries es res r.
Proof.
  revert res r. induction es as [|ri es IH]; intros res r; [done|].
  destruct es as [|ri' es]; [done|].
  cbn [fmap list_fmap read_entries shift offset id].
  change (list_fmap _ _ (shift delta) es) with (shift delta <$> es).
  rewrite u32_shift_diff. unfold mbind, M_bind.
  destruct (Reader_Read _ r) as [[[data [err|]] r']| |]; try done.
  case_decide; [done|]. apply (IH _ r').
Qed.

Lemma shift_valid delta ri : valid_resourceInfo ri → valid_resourceInfo (shift delta ri).
Proof. intros [Hi _]. split; [done|apply u32_range]. Qed.

(** X8: [Read] uses the offsets of the index only through the differences of
    consecutive ones: moving every offset by the same amount (modulo 2^32)
    changes neither the table nor the error returned. *)
Theorem Read_shift_offsets version n encoding es lst body delta :
  is_u32 version → is_u32 n → is_u8 encoding →
  Forall valid_resourceInfo (es ++ [lst]) →
  Z.of_nat (length (es ++ [lst])) = u32 (n + 1) →
  Read (put_header version n encoding
        ++ flat_map put_resourceInfo (shift delta <$> es ++ [lst]) ++ body) =
  Read (put_header version n encoding
        ++ flat_map put_resourceInfo (es ++ [lst]) ++ body).
Proof.
  intros Hv Hn He Hval Hlen.
  rewrite (Read_raw version n encoding es lst) by done.
  rewrite fmap_app. change (shift delta <$> [lst]) with [shift delta lst].
  rewrite Read_raw; try done.
  - cbn [shift id]. case_decide; [done|].
    unfold Read_resources.
    change [shift delta lst] with (shift delta <$> [lst]).
    by rewrite <- fmap_app, read_entries_shift.
  - change [shift delta lst] with (shift delta <$> [lst]). rewrite <- fmap_app.
    apply Forall_fmap. eapply Forall_impl; [exact Hval|].
    intros ri Hri. by apply shift_valid.
  - change [shift delta lst] with (shift delta <$> [lst]).
    by rewrite <- fmap_app, length_fmap.
Qed.

Lemma Read_shift_offsets_witness :
  Read (put_header 4 1 1
        ++ flat_map put_resourceInfo
             (shift 1000 <$> [ {| id := 5; offset := 21 |} ] ++ [ {| id := 0; offset := 22 |} ])
        ++ [Byte.x61]) =
  Read (put_header 4 1 1
        ++ flat_map put_resourceInfo
             ([ {| id := 5; offset := 21 |} ] ++ [ {| id := 0; offset := 22 |} ])
        ++ [Byte.x61]).
Proof.
  apply Read_shift_offsets.
  - in_range.
  - in_range.
  - in_range.
  - valid_infos.
  - vm_compute. reflexivity.
Defined.

(** ** The size of a file *)

(** X9: the file of a table with [N] resources is 9 + 6 * (N + 1) bytes of
    header and index followed by all the payload bytes; nothing is padded
    and no length wraps. *)
Theorem Write_length p range_order out :
  valid_PakFile p → range_of (Resourses p) range_order →
  Write range_order (Some p) = Ok out →
  length out = (9 + 6 * (size (Resourses p) + 1) + total_payload p)%nat.
Proof.
  intros Hp Hr Hw. rewrite Write_layout in Hw. injection Hw as <-.
  rewrite layout_length, payload_length, payload_total by done.
  by rewrite sort_Ints_length, (range_of_length _ _ Hr).
Qed.

Lemma Write_length_witness :
  length (put_header 4 2 1
          ++ put_resourceInfo {| id := 7; offset := 27 |}
          ++ put_resourceInfo {| id := 300; offset := 28 |}
          ++ put_resourceInfo {| id := 0; offset := 29 |}
          ++ [Byte.x61; Byte.x62])
  = (9 + 6 * (size (Resourses pak_ab) + 1) + total_payload pak_ab)%nat.
Proof.
  apply (Write_length pak_ab [300; 7]).
  - by_decide.
  - by_decide.
  - vm_compute. reflexivity.
Defined.

(** ** The id 0 *)

(** X10: neither [Write] nor [Read] sets the id 0 apart: a table that uses it as
    a key is written, first in the index, and read back unchanged. The
    round trip holds for all uint16 keys and payloads below 2^32 bytes. *)
Theorem Read_Write_any_id p range_order :
  valid_PakFile p →
  map_Forall (λ _ d, Z.of_nat (length d) < 2 ^ 32) (Resourses p) →
  range_of (Resourses p) range_order →
  ∃ out, Write range_order (Some p) = Ok out ∧ Read out = Ok p.
Proof.
  intros Hp Hlen Hr. exists (layout p (sort_Ints range_order)).
  split; [apply Write_layout|]. by apply Read_Write.
Qed.

Lemma Read_Write_any_id_witness :
  ∃ out, Write [7; 0] (Some pak_id0) = Ok out ∧ Read out = Ok pak_id0.
Proof.
  apply (Read_Write_any_id pak_id0 [7; 0]).
  - by_decide.
  - by_decide.
  - by_decide.
Defined.

(** ** ReadFile and WriteFile *)

Lemma Write_M_layout range_order p :
  Write_M range_order (Some p) [] = Ok (tt, layout p (sort_Ints range_order)).
Proof.
  pose proof (Write_layout range_order p) as H. unfold Write in H.
  destruct (Write_M range_order (Some p) []) as [[[] w]| |]; by simplify_eq.
Qed.






(** X12: [WriteFile(name, nil)] returns the error of [Write], but only after
    [os.Create] has emptied the file: what the file held is lost, and
    reading it afterwards fails with [io.EOF]. *)
Theorem WriteFile_nil range_order name fs :
  name ∉ no_create fs →
  ∃ fs', WriteFile range_order name None fs = (Done (Err ErrNilPak), fs')
         ∧ files fs' !! name = Some []
         ∧ ReadFile name fs' = Done (Err io_EOF).
Proof.
  intros Hname. unfold WriteFile, os_Create. rewrite decide_False by done.
  eexists. split; [reflexivity|]. cbn [files]. split.
  - by rewrite lookup_insert_eq.
  - unfold ReadFile, os_Open. cbn [files]. by rewrite lookup_insert_eq.
Qed.

Lemma WriteFile_nil_witness :
  ∃ fs', WriteFile [] "resources.pak" None fs_example = (Done (Err ErrNilPak), fs')
         ∧ files fs' !! "resources.pak"%string = Some []
         ∧ ReadFile "resources.pak" fs' = Done (Err io_EOF).
Proof.
  apply (WriteFile_nil [] "resources.pak" fs_example). by_decide.
Defined.



(** ** Several tables in one stream *)

Lemma Write_M_append range_order p w :
  Write_M range_order (Some p) w = Ok (tt, w ++ layout p (sort_Ints range_order)).
Proof.
  unfold Write_M.
  erewrite bind_Ok by apply binary_Write_eq.
  erewrite bind_Ok by apply binary_Write_eq.
  erewrite bind_Ok by apply binary_Write_eq.
  erewrite bind_Ok by apply write_resInfos_eq.
  erewrite bind_Ok by apply binary_Write_eq.
  erewrite bind_Ok by apply binary_Write_eq.
  rewrite write_resources_eq. f_equal. f_equal.
  unfold layout, put_header, start_offset. rewrite flat_map_app.
  change (flat_map put_resourceInfo [?x]) with (put_resourceInfo x ++ []).
  unfold put_resourceInfo at 2. cbn [id offset].
  change (u16 0) with 0. rewrite app_nil_r.
  by rewrite <- !app_assoc.
Qed.

Lemma Read_M_layout p range_order rest :
  valid_PakFile p → range_of (Resourses p) range_order →
  map_Forall (λ _ d, Z.of_nat (length d) < 2 ^ 32) (Resourses p) →
  Read_M (layout p (sort_Ints range_order) ++ rest) = Ok (p, rest).
Proof.
  intros Hp Hr Hlen. pose proof Hp as (Hv & He & _).
  pose proof (valid_sorted_is_u16 p range_order Hp Hr) as Hu.
  destruct (start_offset_valid p Hp) as [Hn _].
  pose proof (valid_size p Hp) as Hsize.
  set (ids := sort_Ints range_order) in *.
  assert (Hids : length ids = size (Resourses p)).
  { unfold ids. rewrite sort_Ints_length. by apply range_of_length. }
  set (es := index_entries p ids (start_offset p)).
  set (lst := {| id := 0; offset := end_offset p ids (start_offset p) |}).
  assert (Hval : Forall valid_resourceInfo (es ++ [lst])).
  { apply index_valid, u32_range. }
  assert (Hd : declared (es ++ [lst]) ((λ i, resource p (u16 i)) <$> ids)).
  { apply index_entries_declared, Forall_forall. intros i Hin.
    assert (Hi : is_u16 i) by (by eapply Forall_forall in Hu).
    rewrite u16_small by done.
    apply (sort_Ints_elem (Resourses p)) in Hin as [d Hd]; [|done].
    unfold resource. rewrite Hd. simpl. apply Hlen in Hd. unfold is_u32. lia. }
  assert (Hes : length (es ++ [lst]) = S (size (Resourses p))).
  { unfold es. rewrite length_app, index_entries_length, Hids. simpl. lia. }
  unfold layout, put_header, Read_M. fold ids es lst. rewrite Hn.
  rewrite <- !app_assoc.
  erewrite bind_Ok by (by apply binary_Read_u32).
  erewrite bind_Ok by (apply binary_Read_u32; unfold is_u32; lia).
  erewrite bind_Ok by (by apply binary_Read_u8).
  rewrite u32_small by (unfold is_u32; lia).
  replace (Z.to_nat (Z.of_nat (size (Resourses p)) + 1))
    with (length (es ++ [lst])) by lia.
  erewrite bind_Ok by (by apply read_resInfos_put).
  erewrite bind_Ok.
  2:{ replace (Z.of_nat (size (Resourses p))) with (Z.of_nat (length es))
        by (unfold es; rewrite index_entries_length; lia).
      apply index_middle. }
  rewrite decide_False by (intros Hne; by apply Hne).
  pose proof (read_resources_entries (size (Resourses p)) [] (es ++ [lst]) ∅
                (payload p ids ++ rest) Hes) as Heq.
  cbn [app length] in Heq. change (Z.of_nat 0) with 0 in Heq.
  rewrite Nat2Z.id. erewrite bind_Ok.
  2:{ rewrite Heq. unfold payload. by apply read_entries_ok. }
  unfold mret, M_mret. f_equal. f_equal.
  rewrite fmap_app. unfold es. rewrite index_entries_ids.
  rewrite zip_app_same_length by (by rewrite !length_fmap).
  fold ids. unfold ids. rewrite insert_all_sorted by done. by destruct p.
Qed.

(** X14: [Write] appends to what the writer holds, and [Read] stops right after
    the last payload: two tables with uint16 keys and payloads below 2^32
    bytes, written one after the other into one writer, are read back one
    after the other from one reader, and the second [Read] leaves nothing
    unread. *)
Theorem Write_Write_Read_Read p1 p2 order1 order2 :
  valid_PakFile p1 → valid_PakFile p2 →
  map_Forall (λ _ d, Z.of_nat (length d) < 2 ^ 32) (Resourses p1) →
  map_Forall (λ _ d, Z.of_nat (length d) < 2 ^ 32) (Resourses p2) →
  range_of (Resourses p1) order1 → range_of (Resourses p2) order2 →
  ∃ w1 w2 r1,
    Write_M order1 (Some p1) [] = Ok (tt, w1)
    ∧ Write_M order2 (Some p2) w1 = Ok (tt, w2)
    ∧ Read_M w2 = Ok (p1, r1)
    ∧ Read_M r1 = Ok (p2, []).
Proof.
  intros Hp1 Hp2 Hl1 Hl2 Hr1 Hr2.
  exists (layout p1 (sort_Ints order1)),
         (layout p1 (sort_Ints order1) ++ layout p2 (sort_Ints order2)),
         (layout p2 (sort_Ints order2)).
  split; [apply Write_M_layout|]. split; [apply Write_M_append|].
  split; [by apply Read_M_layout|].
  rewrite <- (app_nil_r (layout p2 _)). by apply Read_M_layout.
Qed.

Lemma Write_Write_Read_Read_witness :
  ∃ w1 w2 r1,
    Write_M [300; 7] (Some pak_ab) [] = Ok (tt, w1)
    ∧ Write_M [5] (Some pak_5) w1 = Ok (tt, w2)
    ∧ Read_M w2 = Ok (pak_ab, r1)
    ∧ Read_M r1 = Ok (pak_5, []).
Proof.
  apply (Write_Write_Read_Read pak_ab pak_5 [300; 7] [5]); by_decide.
Defined.

(** ** Different tables, different files *)

(** X15: two tables that are written as the same bytes are the same table. *)
Theorem Write_injective p1 p2 order1 order2 :
  valid_PakFile p1 → valid_PakFile p2 →
  map_Forall (λ _ d, Z.of_nat (length d) < 2 ^ 32) (Resourses p1) →
  map_Forall (λ _ d, Z.of_nat (length d) < 2 ^ 32) (Resourses p2) →
  range_of (Resourses p1) order1 → range_of (Resourses p2) order2 →
  Write order1 (Some p1) = Write order2 (Some p2) → p1 = p2.
Proof.
  intros Hp1 Hp2 Hl1 Hl2 Hr1 Hr2 Hw. rewrite !Write_layout in Hw.
  assert (Heq : layout p1 (sort_Ints order1) = layout p2 (sort_Ints order2))
    by congruence.
  pose proof (Read_Write p1 order1 Hp1 Hr1 Hl1) as Hread1.
  pose proof (Read_Write p2 order2 Hp2 Hr2 Hl2) as Hread2.
  rewrite Heq, Hread2 in Hread1. congruence.
Qed.

Lemma Write_injective_witness :
  build 4 1 [(300, [Byte.x62]); (7, [Byte.x61])] =
  build 4 1 [(7, [Byte.x61]); (300, [Byte.x62])].
Proof.
  apply (Write_injective _ _ [300; 7] [7; 300]); try by_decide.
  vm_compute. reflexivity.
Defined.
